(** * AIND-Isolation: the game-playing agent of [game_agent.py]

    A shallow embedding of the evaluation functions, of depth-limited
    minimax, of alpha-beta search and of the move-selection entry point
    [CustomPlayer.get_move], followed by the properties of the specification
    that were checked against them.

    Modelling conventions.
    - Python floats are the extended rationals [Score]: exact arithmetic on
      [Qc], with the two infinities [float("-inf")] and [float("inf")].  The
      program never produces a NaN (a float division by zero raises).
    - Exceptions are the [Raise] outcomes of [outcome]; a Python call that
      reads the clock is a computation of the monad [M], whose state is the
      number of calls made so far to the caller's [time_left] query.
    - The board ([isolation.Board]) is consumed through its interface only,
      the class [Board]. *)

From Stdlib Require Import ZArith QArith Qcanon List Bool String Lia.
From Stdlib Require Import Orders OrdersTac.
Import ListNotations.

Set Implicit Arguments.

(** ** Scores: floats with the two infinities *)

Inductive Score : Type :=
| NegInf : Score
| Fin (q : Qc) : Score
| PosInf : Score.

Definition score_lt (a b : Score) : Prop :=
  match a, b with
  | NegInf, NegInf => False
  | NegInf, _ => True
  | Fin x, Fin y => (x < y)%Qc
  | Fin _, PosInf => True
  | _, _ => False
  end.

Definition score_le (a b : Score) : Prop := score_lt a b \/ a = b.

(** [a < b] on floats. *)
Definition score_ltb (a b : Score) : bool :=
  match a, b with
  | NegInf, NegInf => false
  | NegInf, _ => true
  | Fin x, Fin y => if Qclt_le_dec x y then true else false
  | Fin _, PosInf => true
  | _, _ => false
  end.

(** [a <= b] on floats. *)
Definition score_leb (a b : Score) : bool := negb (score_ltb b a).

(** Python's [max(a, b)]: the first argument unless the second is greater. *)
Definition score_max (a b : Score) : Score := if score_ltb a b then b else a.

(** Python's [min(a, b)]: the first argument unless the second is smaller. *)
Definition score_min (a b : Score) : Score := if score_ltb b a then b else a.

(** An [int] used where a float is expected. *)
Definition of_int (z : Z) : Qc := Q2Qc (inject_Z z).

(** A [bool] compared with floats: [True] is 1 and [False] is 0. *)
Definition of_bool (b : bool) : Score := Fin (of_int (if b then 1 else 0)).

(** ** Outcomes and the clock monad *)

Inductive exn : Type := Timeout | ZeroDivisionError | TypeError.

Inductive outcome (A : Type) : Type :=
| Return (a : A)
| Raise (e : exn).
Arguments Return {A} a.
Arguments Raise {A} e.

(** A computation that may call [time_left()]: it maps the number of calls
    made so far to its outcome and the number of calls made afterwards. *)
Definition M (A : Type) : Type := nat -> outcome A * nat.

Definition ret {A} (a : A) : M A := fun k => (Return a, k).
Definition raise {A} (e : exn) : M A := fun k => (Raise e, k).
Definition lift {A} (o : outcome A) : M A := fun k => (o, k).
Definition bind {A B} (m : M A) (f : A -> M B) : M B :=
  fun k => match m k with
           | (Return a, k') => f a k'
           | (Raise e, k') => (Raise e, k')
           end.

Declare Scope agent_scope.
Delimit Scope agent_scope with agent.
Notation "x <- m ;; f" := (bind m (fun x => f))
  (at level 61, m at next level, right associativity) : agent_scope.
Notation "' p <- m ;; f" := (bind m (fun x => let 'p := x in f))
  (at level 61, p pattern, m at next level, right associativity) : agent_scope.
Open Scope agent_scope.

(** Float division: a zero divisor raises. *)
Definition fdiv (x y : Qc) : outcome Qc :=
  if Qc_eq_dec y (of_int 0) then Raise ZeroDivisionError else Return (x / y)%Qc.

Definition obind {A B} (o : outcome A) (f : A -> outcome B) : outcome B :=
  match o with
  | Return a => f a
  | Raise e => Raise e
  end.

(** ** Moves and the board interface *)

Definition Move : Type := (Z * Z)%type.

Definition no_move : Move := (-1, -1)%Z.

Definition Move_eqb (a b : Move) : bool :=
  (Z.eqb (fst a) (fst b) && Z.eqb (snd a) (snd b))%bool.

(** What [game_agent.py] uses of [isolation.Board].  [get_legal_moves g None]
    is the call without argument (the moves of the player to move);
    [get_player_location] is [None] for a player who is not on the board. *)
Class Board : Type := {
  Game : Type;
  Player : Type;
  width : Game -> Z;
  height : Game -> Z;
  get_blank_spaces : Game -> list Move;
  get_player_location : Game -> Player -> option Move;
  get_opponent : Game -> Player -> Player;
  get_legal_moves : Game -> option Player -> list Move;
  forecast_move : Game -> Move -> Game;
  is_loser : Game -> Player -> bool;
  is_winner : Game -> Player -> bool
}.

Definition len {A} (l : list A) : Z := Z.of_nat (List.length l).

(** ** Evaluation functions *)

Section Heuristics.
Context {B : Board}.

Definition percent_occupation (game : Game) : outcome Qc :=
  let blank_spaces := get_blank_spaces game in
  fdiv (of_int (len blank_spaces)) (of_int (width game * height game)).

(** [(x0, x1) = ...]: unpacking [None] is a [TypeError]. *)
Definition unpack (loc : option Move) : outcome Move :=
  match loc with
  | Some xy => Return xy
  | None => Raise TypeError
  end.

Definition distance_to_opponent (game : Game) (player : Player) : outcome Z :=
  obind (unpack (get_player_location game player)) (fun '(x0, x1) =>
  obind (unpack (get_player_location game (get_opponent game player)))
    (fun '(y0, y1) =>
  Return (Z.abs (x0 - y0) + Z.abs (x1 - y1))%Z)).

(** The arithmetic is exact: the score is the rational that the doubles of
    the code approximate, each of whose operations rounds to the nearest
    double.  Statements about the value of a heuristic are meant up to that
    rounding; statements about its sign, its bounds and its exceptions are
    not affected by it. *)
Definition third_heuristic (game : Game) (player : Player) : outcome Score :=
  let own_moves := len (get_legal_moves game (Some player)) in
  let opp_moves := len (get_legal_moves game (Some (get_opponent game player))) in
  obind (distance_to_opponent game player) (fun distance =>
  obind (percent_occupation game) (fun occupation =>
  Return (Fin (of_int (own_moves + distance) - occupation - of_int opp_moves)%Qc))).

(** Exact arithmetic as in [third_heuristic]; the code divides twice in
    doubles. *)
Definition second_heuristic (game : Game) (player : Player) : outcome Score :=
  let own_moves := len (get_legal_moves game (Some player)) in
  obind (percent_occupation game) (fun occupation =>
  obind (fdiv (of_int own_moves) occupation) (fun r =>
  Return (Fin r))).

Definition aggressive_chaser (game : Game) (player : Player) (weight_opp : Z)
  : outcome Score :=
  let own_moves := len (get_legal_moves game (Some player)) in
  let opp_moves := len (get_legal_moves game (Some (get_opponent game player))) in
  Return (Fin (of_int (own_moves - weight_opp * opp_moves))).

Definition custom_score (game : Game) (player : Player) : outcome Score :=
  if is_loser game player then Return NegInf
  else if is_winner game player then Return PosInf
  else third_heuristic game player.

End Heuristics.

(** ** The player and its searches *)

Section Agent.
Context {B : Board}.

(** The attributes set by [CustomPlayer.__init__].  [ident] is the object
    itself, which the searches hand to the evaluation function as the
    board's player; [time_left] is [None] until [get_move] stores the
    caller's query in it, as a function of the number of earlier calls. *)
Record CustomPlayer : Type := {
  ident : Player;
  search_depth : nat;
  score : Game -> Player -> outcome Score;
  iterative : bool;
  method : string;
  time_left : option (nat -> Q);
  TIMER_THRESHOLD : Q
}.

(** [self.time_left = time_left] *)
Definition set_time_left (self : CustomPlayer) (tl : nat -> Q) : CustomPlayer :=
  {| ident := ident self; search_depth := search_depth self;
     score := score self; iterative := iterative self;
     method := method self; time_left := Some tl;
     TIMER_THRESHOLD := TIMER_THRESHOLD self |}.

(** [self.time_left()] *)
Definition call_time_left (self : CustomPlayer) : M Q :=
  fun k => match time_left self with
           | None => (Raise TypeError, k)
           | Some f => (Return (f k), S k)
           end.

(** [if self.time_left() < self.TIMER_THRESHOLD: raise Timeout()] *)
Definition check_time (self : CustomPlayer) : M unit :=
  t <- call_time_left self ;;
  if Qlt_le_dec t (TIMER_THRESHOLD self) then raise Timeout else ret tt.

(** [self.score(game, self), no_move] *)
Definition leaf (self : CustomPlayer) (game : Game) : M (Score * Move) :=
  v <- lift (score self game (ident self)) ;;
  ret (v, no_move).

(** The [for child in legal_moves] loop of a maximizing layer of [dls];
    [rec] is the recursive call on a forecast board. *)
Fixpoint dls_max_loop (rec : Game -> M (Score * Move)) (game : Game)
    (children : list Move) (bestValue : Score) (bestMove : Move)
  : M (Score * Move) :=
  match children with
  | [] => ret (bestValue, bestMove)
  | child :: rest =>
      '(v, move) <- rec (forecast_move game child) ;;
      if score_ltb bestValue v
      then dls_max_loop rec game rest v child
      else dls_max_loop rec game rest bestValue bestMove
  end.

(** The loop of a minimizing layer of [dls]. *)
Fixpoint dls_min_loop (rec : Game -> M (Score * Move)) (game : Game)
    (children : list Move) (bestValue : Score) (bestMove : Move)
  : M (Score * Move) :=
  match children with
  | [] => ret (bestValue, bestMove)
  | child :: rest =>
      '(v, move) <- rec (forecast_move game child) ;;
      if score_ltb v bestValue
      then dls_min_loop rec game rest v child
      else dls_min_loop rec game rest bestValue bestMove
  end.

Fixpoint dls (self : CustomPlayer) (game : Game) (depth : nat)
    (maximizing_player : bool) : M (Score * Move) :=
  let legal_moves := get_legal_moves game None in
  match depth with
  | O => leaf self game
  | S depth' =>
      if maximizing_player
      then dls_max_loop (fun g => dls self g depth' (negb maximizing_player))
             game legal_moves NegInf no_move
      else dls_min_loop (fun g => dls self g depth' (negb maximizing_player))
             game legal_moves PosInf no_move
  end.

Definition minimax (self : CustomPlayer) (game : Game) (depth : nat)
    (maximizing_player : bool) : M (Score * Move) :=
  _ <- check_time self ;;
  dls self game depth maximizing_player.

(** The loop of a maximizing layer of [alphabeta]; [break] ends it. *)
Fixpoint ab_max_loop (rec : Game -> Score -> Score -> M (Score * Move))
    (game : Game) (children : list Move) (alpha beta : Score)
    (bestValue : Score) (bestMove : Move) : M (Score * Move) :=
  match children with
  | [] => ret (bestValue, bestMove)
  | child :: rest =>
      '(v, move) <- rec (forecast_move game child) alpha beta ;;
      let '(bestValue, bestMove) :=
        if score_ltb bestValue v then (v, child) else (bestValue, bestMove) in
      let alpha := score_max alpha bestValue in
      if score_leb beta alpha
      then ret (bestValue, bestMove)
      else ab_max_loop rec game rest alpha beta bestValue bestMove
  end.

(** The loop of a minimizing layer of [alphabeta]: on an improvement it
    keeps [move], the move returned by the recursive call. *)
Fixpoint ab_min_loop (rec : Game -> Score -> Score -> M (Score * Move))
    (game : Game) (children : list Move) (alpha beta : Score)
    (bestValue : Score) (bestMove : Move) : M (Score * Move) :=
  match children with
  | [] => ret (bestValue, bestMove)
  | child :: rest =>
      '(v, move) <- rec (forecast_move game child) alpha beta ;;
      let '(bestValue, bestMove) :=
        if score_ltb v bestValue then (v, move) else (bestValue, bestMove) in
      let beta := score_min beta bestValue in
      if score_leb beta alpha
      then ret (bestValue, bestMove)
      else ab_min_loop rec game rest alpha beta bestValue bestMove
  end.

Fixpoint alphabeta (self : CustomPlayer) (game : Game) (depth : nat)
    (alpha beta : Score) (maximizing_player : bool) : M (Score * Move) :=
  _ <- check_time self ;;
  let legal_moves := get_legal_moves game None in
  match depth, legal_moves with
  | O, _ => leaf self game
  | _, [] => leaf self game
  | S depth', _ =>
      if maximizing_player
      then ab_max_loop
             (fun g a b => alphabeta self g depth' a b (negb maximizing_player))
             game legal_moves alpha beta NegInf no_move
      else ab_min_loop
             (fun g a b => alphabeta self g depth' a b (negb maximizing_player))
             game legal_moves alpha beta PosInf no_move
  end.

(** ** Move selection *)

(** The local [search] of [get_move]: a bound method, or [None] for an
    unrecognised [self.method].  It is called as [search(game, depth, True)];
    the third positional argument is [maximizing_player] for [minimax] and
    [alpha] for [alphabeta], whose other arguments keep their defaults. *)
Definition select_search (self : CustomPlayer)
  : option (Game -> nat -> bool -> M (Score * Move)) :=
  if String.eqb (method self) "minimax" then
    Some (fun game depth arg => minimax self game depth arg)
  else if String.eqb (method self) "alphabeta" then
    Some (fun game depth arg =>
            alphabeta self game depth (of_bool arg) PosInf true)
  else None.

(** Calling [search]; calling [None] is a [TypeError]. *)
Definition call_search
    (search : option (Game -> nat -> bool -> M (Score * Move)))
    (game : Game) (depth : nat) (arg : bool) : M (Score * Move) :=
  match search with
  | Some f => f game depth arg
  | None => raise TypeError
  end.

(** [for i in itertools.count(): v, move = search(game, i+1, True)] inside
    the [try]: [i] is the loop index and [move] the local variable, read by
    the [except Timeout] handler.  The loop has no exit of its own, so it
    is run with [fuel]; [None] means that the fuel ran out. *)
Fixpoint deepening (fuel : nat)
    (search : option (Game -> nat -> bool -> M (Score * Move)))
    (game : Game) (i : nat) (move : option Move) (k : nat)
  : option (outcome (option Move) * nat) :=
  match fuel with
  | O => None
  | S fuel' =>
      match call_search search game (i + 1) true k with
      | (Return (v, move'), k') =>
          deepening fuel' search game (S i) (Some move') k'
      | (Raise Timeout, k') => Some (Return move, k')
      | (Raise e, k') => Some (Raise e, k')
      end
  end.

(** The double nearest to an integer, ties to the even mantissa of 53 bits;
    integers below 2^53 in absolute value are doubles. *)
Definition round53 (x : Z) : Z :=
  let a := Z.abs x in
  let shift := (Z.log2 a + 1 - 53)%Z in
  if (shift <=? 0)%Z then x
  else
    let m := Z.shiftr a shift in
    let r := (a - Z.shiftl m shift)%Z in
    let h := Z.shiftl 1 (shift - 1) in
    let m' := if ((h <? r)%Z || ((h =? r)%Z && Z.odd m))%bool
              then (m + 1)%Z else m in
    (Z.sgn x * Z.shiftl m' shift)%Z.

(** [int(x / 2)]: the true division of two ints gives the double nearest to
    the quotient, which is half the double nearest to [x]; [int] truncates
    it towards zero.  (The [OverflowError] of the division, for an [x] of
    1025 bits or more, is left out.) *)
Definition half (x : Z) : Z := Z.quot (round53 x) 2.

(** [get_move]; the result [None] of the inner option is Python's [None]. *)
Definition get_move (fuel : nat) (self : CustomPlayer) (game : Game)
    (legal_moves : list Move) (tl : nat -> Q) (k : nat)
  : option (outcome (option Move) * nat) :=
  let self := set_time_left self tl in
  match legal_moves with
  | [] => Some (Return (Some no_move), k)
  | _ :: _ =>
      let search := select_search self in
      let move : option Move := None in
      if Z.eqb (len (get_legal_moves game None)) (width game * height game)
      then Some (Return (Some (half (width game), half (height game))), k)
      else if iterative self
      then deepening fuel search game 0 move k
      else
        match call_search search game (search_depth self) true k with
        | (Return (v, move'), k') => Some (Return (Some move'), k')
        | (Raise Timeout, k') => Some (Return move, k')
        | (Raise e, k') => Some (Raise e, k')
        end
  end.

End Agent.

(** ** The evaluation functions as the specification words them

    The specification's occupancy fraction is "occupied cells / total
    cells"; the occupied cells are those that are not blank. *)

Section SpecHeuristics.
Context {B : Board}.

Definition occupancy_fraction_spec (game : Game) : outcome Qc :=
  let total := (width game * height game)%Z in
  fdiv (of_int (total - len (get_blank_spaces game))) (of_int total).

Definition third_heuristic_spec (game : Game) (player : Player) : outcome Score :=
  let own_moves := len (get_legal_moves game (Some player)) in
  let opp_moves := len (get_legal_moves game (Some (get_opponent game player))) in
  obind (distance_to_opponent game player) (fun distance =>
  obind (occupancy_fraction_spec game) (fun occupancy =>
  Return (Fin (of_int own_moves + of_int distance - occupancy - of_int opp_moves)%Qc))).

Definition second_heuristic_spec (game : Game) (player : Player) : outcome Score :=
  let own_moves := len (get_legal_moves game (Some player)) in
  obind (occupancy_fraction_spec game) (fun occupancy =>
  obind (fdiv (of_int own_moves) occupancy) (fun r =>
  Return (Fin r))).

(** The centre cell of the specification's opening shortcut, as a move:
    moves are (row, col) pairs, so it is the middle of the [height] rows and
    the middle of the [width] columns. *)
Definition centre_cell (game : Game) : Move :=
  ((height game / 2)%Z, (width game / 2)%Z).

End SpecHeuristics.

(** ** Reference notions used by the statements *)

Section Reference.
Context {B : Board}.

(** The float that [self.score(game, self)] returns. *)
Definition value_at (self : CustomPlayer) (game : Game) : Score :=
  match score self game (ident self) with
  | Return v => v
  | Raise _ => NegInf
  end.

Definition keep_max (best v : Score) : Score := if score_ltb best v then v else best.
Definition keep_min (best v : Score) : Score := if score_ltb v best then v else best.

(** The minimax value of a state at a depth, as a plain function. *)
Fixpoint minimax_value (self : CustomPlayer) (depth : nat) (maximizing : bool)
    (game : Game) : Score :=
  match depth with
  | O => value_at self game
  | S depth' =>
      if maximizing
      then fold_left
             (fun best child =>
                keep_max best
                  (minimax_value self depth' (negb maximizing) (forecast_move game child)))
             (get_legal_moves game None) NegInf
      else fold_left
             (fun best child =>
                keep_min best
                  (minimax_value self depth' (negb maximizing) (forecast_move game child)))
             (get_legal_moves game None) PosInf
  end.

(** Every state without legal moves that lies above the depth limit is
    scored as lost for the side to move: minus infinity on a maximizing
    layer, plus infinity on a minimizing layer. *)
Fixpoint dead_ends_scored (self : CustomPlayer) (depth : nat) (maximizing : bool)
    (game : Game) : Prop :=
  match depth with
  | O => True
  | S depth' =>
      match get_legal_moves game None with
      | [] => score self game (ident self)
              = Return (if maximizing then NegInf else PosInf)
      | moves =>
          Forall
            (fun child =>
               dead_ends_scored self depth' (negb maximizing) (forecast_move game child))
            moves
      end
  end.

(** What a fail-soft alpha-beta search called with the window [alpha], [beta]
    promises about its result [r], for the minimax value [V]. *)
Definition within (alpha beta V r : Score) : Prop :=
  (score_le r alpha -> score_le V r) /\
  (score_le beta r -> score_le r V) /\
  (score_lt alpha r -> score_lt r beta -> r = V).

(** The clock never reads below the threshold. *)
Definition ample (self : CustomPlayer) : Prop :=
  exists tl, time_left self = Some tl /\
             forall k, ~ (tl k < TIMER_THRESHOLD self)%Q.

(** The searches of depths 1 to [d] run one after the other from clock [k]:
    the move of the last one and the clock afterwards, if all returned. *)
Fixpoint completed_depths (self : CustomPlayer) (game : Game) (d : nat) (k : nat)
  : option (option Move * nat) :=
  match d with
  | O => Some (None, k)
  | S d' =>
      match completed_depths self game d' k with
      | Some (_, kd) =>
          match call_search (select_search self) game (S d') true kd with
          | (Return (_, move), k') => Some (Some move, k')
          | (Raise _, _) => None
          end
      | None => None
      end
  end.

(** [self] with fixed-depth search at depth [d]. *)
Definition fixed_depth (self : CustomPlayer) (d : nat) : CustomPlayer :=
  {| ident := ident self; search_depth := d;
     score := score self; iterative := false;
     method := method self; time_left := time_left self;
     TIMER_THRESHOLD := TIMER_THRESHOLD self |}.

(** A run from clock [k] to clock [k'] with outcome [r] has read the clock
    as the timeout rule asks: a reading strictly below the threshold ends
    the run at once with [Timeout], and [Timeout] comes from nowhere else. *)
Definition polled_run {A : Type} (tl : nat -> Q) (threshold : Q)
    (k : nat) (r : outcome A) (k' : nat) : Prop :=
  (k <= k')%nat /\
  (forall j, (k <= j < k')%nat -> (tl j < threshold)%Q ->
             r = Raise Timeout /\ S j = k') /\
  (r = Raise Timeout ->
   exists j, S j = k' /\ (k <= j)%nat /\ (tl j < threshold)%Q).

End Reference.

(** ** An example board: Isolation with knight moves

    A [width] by [height] grid; a player who has not moved yet may take any
    blank cell, afterwards the player moves like a chess knight to a blank
    cell; the player to move who cannot move has lost. *)

Module Isolation.

Record State : Type := {
  columns : Z;
  rows : Z;
  occupied : list Move;
  loc1 : option Move;
  loc2 : option Move;
  active : bool
}.

Definition range (n : Z) : list Z := map Z.of_nat (seq 0 (Z.to_nat n)).

Definition cells (st : State) : list Move :=
  flat_map (fun i => map (fun j => (i, j)) (range (columns st))) (range (rows st)).

Definition is_blank (st : State) (m : Move) : bool :=
  negb (existsb (Move_eqb m) (occupied st)).

Definition in_bounds (st : State) (m : Move) : bool :=
  ((0 <=? fst m) && (fst m <? rows st) && (0 <=? snd m) && (snd m <? columns st))%Z%bool.

Definition blank_spaces (st : State) : list Move := filter (is_blank st) (cells st).

Definition directions : list Move :=
  [(-2, -1); (-2, 1); (-1, -2); (-1, 2); (1, -2); (1, 2); (2, -1); (2, 1)]%Z.

Definition moves_from (st : State) (loc : option Move) : list Move :=
  match loc with
  | None => blank_spaces st
  | Some (r, c) =>
      filter (fun m => in_bounds st m && is_blank st m)%bool
             (map (fun d => (r + fst d, c + snd d)%Z) directions)
  end.

Definition location (st : State) (p : bool) : option Move :=
  if p then loc1 st else loc2 st.

Definition legal_moves (st : State) (p : option bool) : list Move :=
  moves_from st (location st (match p with Some q => q | None => active st end)).

Definition apply_move (st : State) (m : Move) : State :=
  {| columns := columns st; rows := rows st;
     occupied := m :: occupied st;
     loc1 := if active st then Some m else loc1 st;
     loc2 := if active st then loc2 st else Some m;
     active := negb (active st) |}.

Definition stuck (st : State) : bool :=
  match legal_moves st None with [] => true | _ :: _ => false end.

Definition loser (st : State) (p : bool) : bool :=
  (Bool.eqb p (active st) && stuck st)%bool.

Definition winner (st : State) (p : bool) : bool :=
  (Bool.eqb p (negb (active st)) && stuck st)%bool.

#[export] Instance board : Board := {|
  Game := State;
  Player := bool;
  width := columns;
  height := rows;
  get_blank_spaces := blank_spaces;
  get_player_location := location;
  get_opponent := fun _ p => negb p;
  get_legal_moves := legal_moves;
  forecast_move := apply_move;
  is_loser := loser;
  is_winner := winner
|}.

(** A fresh 7 x 7 board: nobody has moved. *)
Definition fresh7 : State :=
  {| columns := 7; rows := 7; occupied := []; loc1 := None; loc2 := None;
     active := true |}.

(** 7 x 7, player 1 on (3,3) and to move, player 2 on (0,0). *)
Definition middle7 : State :=
  {| columns := 7; rows := 7; occupied := [(3, 3); (0, 0)]%Z;
     loc1 := Some (3, 3)%Z; loc2 := Some (0, 0)%Z; active := true |}.

(** 3 x 3, player 1 on (0,0) and to move, player 2 on the centre, from
    where a knight cannot move. *)
Definition corner3 : State :=
  {| columns := 3; rows := 3; occupied := [(0, 0); (1, 1)]%Z;
     loc1 := Some (0, 0)%Z; loc2 := Some (1, 1)%Z; active := true |}.

(** [corner3] with player 2 to move: the player to move is stuck. *)
Definition corner3_stuck : State :=
  {| columns := 3; rows := 3; occupied := [(0, 0); (1, 1)]%Z;
     loc1 := Some (0, 0)%Z; loc2 := Some (1, 1)%Z; active := false |}.

(** 4 x 4, player 1 on (0,0) and to move, player 2 on (3,3). *)
Definition corners4 : State :=
  {| columns := 4; rows := 4; occupied := [(0, 0); (3, 3)]%Z;
     loc1 := Some (0, 0)%Z; loc2 := Some (3, 3)%Z; active := true |}.

(** 5 x 5, player 1 on (0,0), player 2 on (4,4) and to move. *)
Definition corners5 : State :=
  {| columns := 5; rows := 5; occupied := [(0, 0); (4, 4)]%Z;
     loc1 := Some (0, 0)%Z; loc2 := Some (4, 4)%Z; active := false |}.

(** 5 x 5, player 1 on the centre and to move, player 2 on (0,1). *)
Definition centre5 : State :=
  {| columns := 5; rows := 5; occupied := [(2, 2); (0, 1)]%Z;
     loc1 := Some (2, 2)%Z; loc2 := Some (0, 1)%Z; active := true |}.

(** A board without cells. *)
Definition void : State :=
  {| columns := 0; rows := 0; occupied := []; loc1 := None; loc2 := None;
     active := true |}.

(** Player 1 as a [CustomPlayer]. *)
Definition agent (score_fn : State -> bool -> outcome Score) (meth : string)
    (iter : bool) (depth : nat) (threshold : Q) : CustomPlayer :=
  {| ident := true; search_depth := depth; score := score_fn;
     iterative := iter; method := meth; time_left := None;
     TIMER_THRESHOLD := threshold |}.

(** The module-level [aggressive_chaser] with its default weight, as a
    [score_fn]. *)
Definition chaser (game : State) (player : bool) : outcome Score :=
  aggressive_chaser game player 2.

(** A clock that always reads [t]. *)
Definition steady (t : Q) : nat -> Q := fun _ => t.

(** A clock that reads [t] for the first [n] calls and 0 afterwards. *)
Definition expiring (n : nat) (t : Q) : nat -> Q :=
  fun k => if Nat.ltb k n then t else 0%Q.

End Isolation.

(** ** Further notions and example states *)

(** 2 x 1, both cells taken. *)
Definition full2 : Isolation.State :=
  {| Isolation.columns := 2; Isolation.rows := 1;
     Isolation.occupied := [(0, 0); (0, 1)]%Z;
     Isolation.loc1 := Some (0, 0)%Z; Isolation.loc2 := Some (0, 1)%Z;
     Isolation.active := true |}.

(** A fresh board of 7 columns and a single row: nobody has moved. *)
Definition strip7 : Isolation.State :=
  {| Isolation.columns := 7; Isolation.rows := 1; Isolation.occupied := [];
     Isolation.loc1 := None; Isolation.loc2 := None; Isolation.active := true |}.

(** 3 x 2, player 1 on (0,0) and to move, player 2 on (1,1), one blank
    cell left, (1,2), which player 1 can reach. *)
Definition last_cell : Isolation.State :=
  {| Isolation.columns := 3; Isolation.rows := 2;
     Isolation.occupied := [(0, 0); (0, 1); (0, 2); (1, 0); (1, 1)]%Z;
     Isolation.loc1 := Some (0, 0)%Z; Isolation.loc2 := Some (1, 1)%Z;
     Isolation.active := true |}.

(** The nodes of the game tree below a state, down to a depth. *)
Fixpoint tree_size {B : Board} (depth : nat) (game : Game) : nat :=
  match depth with
  | O => 1
  | S depth' =>
      S (list_sum (map (fun child => tree_size depth' (forecast_move game child))
                       (get_legal_moves game None)))
  end.

(** Where the exception of a run from clock [k] to clock [k'] comes from: a
    reading of the clock below the threshold, or the evaluation function. *)
Definition raise_source {B : Board} {A : Type} (self : CustomPlayer)
    (tl : nat -> Q) (k : nat) (r : outcome A) (k' : nat) : Prop :=
  (k <= k')%nat /\
  forall e, r = Raise e ->
    (e = Timeout /\
     exists j, (k <= j < k')%nat /\ (tl j < TIMER_THRESHOLD self)%Q) \/
    (exists g, score self g (ident self) = Raise e).

(** * Properties *)

(** ** The order on scores *)

Lemma score_ltb_lt (a b : Score) : score_ltb a b = true <-> score_lt a b.
Proof.
  destruct a as [|x|], b as [|y|]; simpl;
    try (split; intros H; solve [exact I | reflexivity | discriminate | contradiction]).
  destruct (Qclt_le_dec x y) as [H|H]; split; trivial; try discriminate.
  intros H'. exfalso. exact (Qcle_not_lt _ _ H H').
Qed.

Lemma score_lt_irrefl (a : Score) : ~ score_lt a a.
Proof.
  destruct a as [|x|]; simpl; try tauto.
  intros H. exact (Qclt_not_eq _ _ H eq_refl).
Qed.

Lemma score_lt_trans (a b c : Score) : score_lt a b -> score_lt b c -> score_lt a c.
Proof.
  destruct a as [|x|], b as [|y|], c as [|z|]; simpl; try tauto.
  apply Qclt_trans.
Qed.

Lemma score_lt_total (a b : Score) : score_lt a b \/ a = b \/ score_lt b a.
Proof.
  destruct a as [|x|], b as [|y|]; simpl; auto.
  destruct (Qc_dec x y) as [[H|H]|H]; auto.
  right; left; now subst.
Qed.

Module ScoreOrder.
Definition t : Type := Score.
Definition eq : t -> t -> Prop := @Logic.eq Score.
Definition lt : t -> t -> Prop := score_lt.
Definition le : t -> t -> Prop := score_le.

#[global] Instance eq_equiv : Equivalence eq.
Proof. unfold eq. split; congruence. Qed.

#[global] Instance lt_strorder : StrictOrder lt.
Proof.
  split.
  - intros a. exact (@score_lt_irrefl a).
  - intros a b c. apply score_lt_trans.
Qed.

#[global] Instance lt_compat : Proper (eq ==> eq ==> iff) lt.
Proof. intros a a' Ha b b' Hb. unfold eq in *. subst. tauto. Qed.

Lemma le_lteq : forall x y, le x y <-> lt x y \/ eq x y.
Proof. intros x y. unfold le, score_le, lt, eq. tauto. Qed.

Lemma lt_total : forall x y, lt x y \/ eq x y \/ lt y x.
Proof. exact score_lt_total. Qed.
End ScoreOrder.

Module ScoreTac := MakeOrderTac ScoreOrder ScoreOrder.

(** Order goals on scores, by the generic [order] tactic. *)
Ltac score_order :=
  change score_lt with ScoreOrder.lt in *;
  change score_le with ScoreOrder.le in *;
  change (@Logic.eq Score) with ScoreOrder.eq in *;
  ScoreTac.order.

Lemma score_ltb_ge (a b : Score) : score_ltb a b = false <-> score_le b a.
Proof.
  split; intros H.
  - destruct (score_lt_total a b) as [L|[E|L]].
    + apply score_ltb_lt in L. congruence.
    + right. congruence.
    + left. exact L.
  - destruct (score_ltb a b) eqn:E; trivial.
    apply score_ltb_lt in E. score_order.
Qed.

Lemma score_leb_le (a b : Score) : score_leb a b = true <-> score_le a b.
Proof.
  unfold score_leb. rewrite negb_true_iff. apply score_ltb_ge.
Qed.

Lemma score_leb_gt (a b : Score) : score_leb a b = false <-> score_lt b a.
Proof.
  unfold score_leb. rewrite negb_false_iff. apply score_ltb_lt.
Qed.

Lemma NegInf_least (a : Score) : score_le NegInf a.
Proof. destruct a; unfold score_le; simpl; auto. Qed.

Lemma PosInf_greatest (a : Score) : score_le a PosInf.
Proof. destruct a; unfold score_le; simpl; auto. Qed.

(** Case analysis on every comparison of scores in sight. *)
Ltac split_comparisons :=
  repeat match goal with
    | H : context [score_ltb ?a ?b] |- _ =>
        let E := fresh "E" in
        destruct (score_ltb a b) eqn:E;
        [apply score_ltb_lt in E | apply score_ltb_ge in E]
    | |- context [score_ltb ?a ?b] =>
        let E := fresh "E" in
        destruct (score_ltb a b) eqn:E;
        [apply score_ltb_lt in E | apply score_ltb_ge in E]
    end.

(** ** Running computations *)

Lemma bind_Return_inv {A B} (m : M A) (f : A -> M B) (k k' : nat) (b : B) :
  bind m f k = (Return b, k') ->
  exists a k1, m k = (Return a, k1) /\ f a k1 = (Return b, k').
Proof.
  unfold bind. destruct (m k) as [[a|e] k1]; intros H.
  - exists a, k1. split; [reflexivity | exact H].
  - discriminate.
Qed.

Section SearchFacts.
Context {B : Board}.
Variable self : CustomPlayer.

Lemma leaf_Return_inv (game : Game) (k k' : nat) (v : Score) (m : Move) :
  leaf self game k = (Return (v, m), k') ->
  score self game (ident self) = Return v /\ v = value_at self game.
Proof.
  unfold leaf, bind, lift, ret, value_at.
  destruct (score self game (ident self)) as [w|e]; intros H; inversion H; auto.
Qed.

(** *** Plain minimax computes [minimax_value] *)

Lemma dls_max_loop_value (rec : Game -> M (Score * Move)) (f : Game -> Score)
    (game : Game) (children : list Move) :
  (forall g k v m k', rec g k = (Return (v, m), k') -> v = f g) ->
  forall best bm k v m k',
    dls_max_loop rec game children best bm k = (Return (v, m), k') ->
    v = fold_left (fun b c => keep_max b (f (forecast_move game c))) children best.
Proof.
  intros Hrec. induction children as [|c cs IH]; simpl; intros best bm k v m k' H.
  - inversion H; reflexivity.
  - apply bind_Return_inv in H. destruct H as ([v1 m1] & k1 & Hc & H).
    apply Hrec in Hc. subst v1. unfold keep_max.
    destruct (score_ltb best (f (forecast_move game c))); eapply IH; exact H.
Qed.

Lemma dls_min_loop_value (rec : Game -> M (Score * Move)) (f : Game -> Score)
    (game : Game) (children : list Move) :
  (forall g k v m k', rec g k = (Return (v, m), k') -> v = f g) ->
  forall best bm k v m k',
    dls_min_loop rec game children best bm k = (Return (v, m), k') ->
    v = fold_left (fun b c => keep_min b (f (forecast_move game c))) children best.
Proof.
  intros Hrec. induction children as [|c cs IH]; simpl; intros best bm k v m k' H.
  - inversion H; reflexivity.
  - apply bind_Return_inv in H. destruct H as ([v1 m1] & k1 & Hc & H).
    apply Hrec in Hc. subst v1. unfold keep_min.
    destruct (score_ltb (f (forecast_move game c)) best); eapply IH; exact H.
Qed.

Lemma dls_value (depth : nat) :
  forall game mx k v m k',
    dls self game depth mx k = (Return (v, m), k') ->
    v = minimax_value self depth mx game.
Proof.
  induction depth as [|d IH]; intros game mx k v m k' H.
  - simpl in *. apply leaf_Return_inv in H. tauto.
  - simpl in *. destruct mx.
    + eapply dls_max_loop_value in H; [exact H|]. intros; eapply IH; eauto.
    + eapply dls_min_loop_value in H; [exact H|]. intros; eapply IH; eauto.
Qed.

Lemma fold_keep_max_ge (h : Move -> Score) (children : list Move) :
  forall x, score_le x (fold_left (fun b c => keep_max b (h c)) children x).
Proof.
  induction children as [|c cs IH]; simpl; intros x.
  - right; reflexivity.
  - specialize (IH (keep_max x (h c))). unfold keep_max in *.
    split_comparisons; score_order.
Qed.

Lemma fold_keep_min_le (h : Move -> Score) (children : list Move) :
  forall x, score_le (fold_left (fun b c => keep_min b (h c)) children x) x.
Proof.
  induction children as [|c cs IH]; simpl; intros x.
  - right; reflexivity.
  - specialize (IH (keep_min x (h c))). unfold keep_min in *.
    split_comparisons; score_order.
Qed.

End SearchFacts.

(** ** Alpha-beta against minimax *)

Lemma within_cases (alpha beta V r : Score) :
  score_lt alpha beta -> within alpha beta V r ->
  (score_le r alpha /\ score_le V r) \/
  (score_le beta r /\ score_le r V) \/
  (score_lt alpha r /\ score_lt r beta /\ r = V).
Proof.
  intros Hw (H1 & H2 & H3).
  destruct (score_lt_total alpha r) as [L|[E|L]];
    destruct (score_lt_total r beta) as [L'|[E'|L']];
    try (left; split; [|apply H1]; score_order);
    try (right; left; split; [|apply H2]; score_order).
  right; right. auto.
Qed.

Lemma within_exact (alpha beta V : Score) : within alpha beta V V.
Proof. repeat split; intros; score_order. Qed.

Lemma within_full_window (V r : Score) : within NegInf PosInf V r -> r = V.
Proof.
  intros (H1 & H2 & H3).
  pose proof (NegInf_least V). pose proof (PosInf_greatest V).
  pose proof (NegInf_least r). pose proof (PosInf_greatest r).
  destruct (score_lt_total NegInf r) as [L|[E|L]];
    destruct (score_lt_total r PosInf) as [L'|[E'|L']];
    try (now apply H3);
    try (assert (score_le V r) by (apply H1; score_order); score_order);
    try (assert (score_le r V) by (apply H2; score_order); score_order).
Qed.

Ltac break_logic :=
  repeat match goal with
    | H : _ /\ _ |- _ => destruct H
    | H : _ \/ _ |- _ => destruct H
    end.

Section AlphaBeta.
Context {B : Board}.
Variable self : CustomPlayer.

Lemma ab_max_loop_within
    (rec : Game -> Score -> Score -> M (Score * Move)) (f : Game -> Score)
    (game : Game) (alpha0 beta : Score) (children : list Move) :
  Forall (fun c => forall a b k v m k',
            score_lt a b ->
            rec (forecast_move game c) a b k = (Return (v, m), k') ->
            within a b (f (forecast_move game c)) v) children ->
  forall a best bm seen k v m k',
    score_le alpha0 a -> score_le best a ->
    (score_le a alpha0 \/ score_le a best) ->
    score_lt a beta ->
    ((score_le best alpha0 /\ score_le seen best) \/
     (score_lt alpha0 best /\ best = seen)) ->
    ab_max_loop rec game children a beta best bm k = (Return (v, m), k') ->
    within alpha0 beta
      (fold_left (fun b c => keep_max b (f (forecast_move game c))) children seen) v.
Proof.
  induction 1 as [|c cs Hc Hcs IH]; simpl;
    intros a best bm seen k v m k' Ha Hb Hmax Hlt Hinv H.
  - inversion H; subst. unfold within. break_logic; repeat split; intros; score_order.
  - apply bind_Return_inv in H. destruct H as ([v1 m1] & k1 & Hcall & H).
    apply Hc in Hcall; [|exact Hlt].
    apply within_cases in Hcall; [|exact Hlt].
    pose proof (fold_keep_max_ge (fun c => f (forecast_move game c)) cs
                  (keep_max seen (f (forecast_move game c)))) as Hge.
    set (V := fold_left _ cs _) in *.
    destruct (score_ltb best v1) eqn:E1;
      [apply score_ltb_lt in E1 | apply score_ltb_ge in E1].
    + destruct (score_leb beta (score_max a v1)) eqn:E2;
        [apply score_leb_le in E2 | apply score_leb_gt in E2].
      * inversion H; subst. unfold within, score_max, keep_max in *.
        split_comparisons; break_logic; repeat split; intros; score_order.
      * eapply IH in H; [exact H| | | | |];
          unfold score_max, keep_max in *;
          split_comparisons; break_logic;
          try score_order;
          try (left; score_order); try (right; score_order);
          try (left; split; score_order); try (right; split; score_order).
    + destruct (score_leb beta (score_max a best)) eqn:E2;
        [apply score_leb_le in E2 | apply score_leb_gt in E2].
      * exfalso. unfold score_max in *. split_comparisons; score_order.
      * eapply IH in H; [exact H| | | | |];
          unfold score_max, keep_max in *;
          split_comparisons; break_logic;
          try score_order;
          try (left; score_order); try (right; score_order);
          try (left; split; score_order); try (right; split; score_order).
Qed.

Lemma ab_min_loop_within
    (rec : Game -> Score -> Score -> M (Score * Move)) (f : Game -> Score)
    (game : Game) (alpha beta0 : Score) (children : list Move) :
  Forall (fun c => forall a b k v m k',
            score_lt a b ->
            rec (forecast_move game c) a b k = (Return (v, m), k') ->
            within a b (f (forecast_move game c)) v) children ->
  forall b best bm seen k v m k',
    score_le b beta0 -> score_le b best ->
    (score_le beta0 b \/ score_le best b) ->
    score_lt alpha b ->
    ((score_le beta0 best /\ score_le best seen) \/
     (score_lt best beta0 /\ best = seen)) ->
    ab_min_loop rec game children alpha b best bm k = (Return (v, m), k') ->
    within alpha beta0
      (fold_left (fun b c => keep_min b (f (forecast_move game c))) children seen) v.
Proof.
  induction 1 as [|c cs Hc Hcs IH]; simpl;
    intros b best bm seen k v m k' Ha Hb Hmin Hlt Hinv H.
  - inversion H; subst. unfold within. break_logic; repeat split; intros; score_order.
  - apply bind_Return_inv in H. destruct H as ([v1 m1] & k1 & Hcall & H).
    apply Hc in Hcall; [|exact Hlt].
    apply within_cases in Hcall; [|exact Hlt].
    pose proof (fold_keep_min_le (fun c => f (forecast_move game c)) cs
                  (keep_min seen (f (forecast_move game c)))) as Hge.
    set (V := fold_left _ cs _) in *.
    destruct (score_ltb v1 best) eqn:E1;
      [apply score_ltb_lt in E1 | apply score_ltb_ge in E1].
    + destruct (score_leb (score_min b v1) alpha) eqn:E2;
        [apply score_leb_le in E2 | apply score_leb_gt in E2].
      * inversion H; subst. unfold within, score_min, keep_min in *.
        split_comparisons; break_logic; repeat split; intros; score_order.
      * eapply IH in H; [exact H| | | | |];
          unfold score_min, keep_min in *;
          split_comparisons; break_logic;
          try score_order;
          try (left; score_order); try (right; score_order);
          try (left; split; score_order); try (right; split; score_order).
    + destruct (score_leb (score_min b best) alpha) eqn:E2;
        [apply score_leb_le in E2 | apply score_leb_gt in E2].
      * exfalso. unfold score_min in *. split_comparisons; score_order.
      * eapply IH in H; [exact H| | | | |];
          unfold score_min, keep_min in *;
          split_comparisons; break_logic;
          try score_order;
          try (left; score_order); try (right; score_order);
          try (left; split; score_order); try (right; split; score_order).
Qed.

Lemma check_time_Return_inv (k k1 : nat) (u : unit) :
  check_time self k = (Return u, k1) ->
  k1 = S k /\
  exists tl, time_left self = Some tl /\ ~ (tl k < TIMER_THRESHOLD self)%Q.
Proof.
  unfold check_time, call_time_left, bind, raise, ret.
  destruct (time_left self) as [tl|]; [|discriminate].
  destruct (Qlt_le_dec (tl k) (TIMER_THRESHOLD self)) as [L|L]; [discriminate|].
  intros H; inversion H; subst. split; trivial.
  exists tl. split; trivial. now apply Qle_not_lt.
Qed.

Lemma alphabeta_within (depth : nat) :
  forall game mx alpha beta k v m k',
    score_lt alpha beta ->
    dead_ends_scored self depth mx game ->
    alphabeta self game depth alpha beta mx k = (Return (v, m), k') ->
    within alpha beta (minimax_value self depth mx game) v.
Proof.
  induction depth as [|d IH]; intros game mx alpha beta k v m k' Hw Hdead H.
  - simpl in H. apply bind_Return_inv in H. destruct H as (u & k1 & _ & H).
    apply leaf_Return_inv in H. destruct H as [_ ->]. apply within_exact.
  - simpl in H. apply bind_Return_inv in H. destruct H as (u & k1 & _ & H).
    simpl in Hdead. simpl minimax_value.
    destruct (get_legal_moves game None) as [|c cs] eqn:Hmoves.
    + apply leaf_Return_inv in H. destruct H as [Hs _].
      rewrite Hs in Hdead. inversion Hdead; subst.
      destruct mx; simpl; apply within_exact.
    + assert (Hrec : Forall (fun c0 => forall a b k0 v0 m0 k0',
                score_lt a b ->
                alphabeta self (forecast_move game c0) d a b (negb mx) k0
                  = (Return (v0, m0), k0') ->
                within a b (minimax_value self d (negb mx) (forecast_move game c0)) v0)
              (c :: cs)).
      { rewrite Forall_forall in *. intros c0 Hin a b k0 v0 m0 k0' Hab Hrun.
        eapply IH; eauto. }
      destruct mx.
      * eapply ab_max_loop_within in H; [exact H|exact Hrec| | | | |];
          pose proof (NegInf_least alpha);
          try score_order; try (left; score_order).
        left; split; score_order.
      * eapply ab_min_loop_within in H; [exact H|exact Hrec| | | | |];
          pose proof (PosInf_greatest beta);
          try score_order; try (left; score_order).
        left; split; score_order.
Qed.

End AlphaBeta.

(** ** The evaluation, not the clock, decides a completed search *)

Lemma fold_left_agree {A C : Type} (f g : A -> C -> A) (l : list C) :
  (forall a c, f a c = g a c) -> forall a, fold_left f l a = fold_left g l a.
Proof.
  intros H. induction l as [|c l IH]; simpl; intros a; trivial.
  rewrite H. apply IH.
Qed.

Section SamePlayer.
Context {B : Board}.
Variables self self' : CustomPlayer.
Hypothesis same_score : score self = score self'.
Hypothesis same_ident : ident self = ident self'.

Lemma minimax_value_agree (depth : nat) :
  forall mx game,
    minimax_value self depth mx game = minimax_value self' depth mx game.
Proof.
  induction depth as [|d IH]; intros mx game; simpl.
  - unfold value_at. now rewrite same_score, same_ident.
  - destruct mx; apply fold_left_agree; intros a c; now rewrite IH.
Qed.

Lemma dead_ends_scored_agree (depth : nat) :
  forall mx game,
    dead_ends_scored self depth mx game -> dead_ends_scored self' depth mx game.
Proof.
  induction depth as [|d IH]; intros mx game; simpl; trivial.
  destruct (get_legal_moves game None) as [|c cs].
  - now rewrite same_score, same_ident.
  - intros H. eapply Forall_impl; [|exact H]. intros a Ha. now apply IH.
Qed.

End SamePlayer.

(** C1, as amended: when every state without legal moves above the depth
    limit is scored as lost for the side to move (minus infinity on a
    maximizing layer, plus infinity on a minimizing layer), the score that
    [alphabeta] returns at the root, called with alpha = -inf and
    beta = +inf, is the score that [minimax] returns on the same state at the
    same depth with the maximizing flag set, whatever the two clocks are, as
    long as neither run is cut short. *)
Theorem alphabeta_root_score_is_minimax_score {B : Board}
    (self : CustomPlayer) (game : Game) (depth : nat) (tl1 tl2 : nat -> Q)
    (k1 k2 k1' k2' : nat) (v1 v2 : Score) (m1 m2 : Move) :
  dead_ends_scored self depth true game ->
  alphabeta (set_time_left self tl1) game depth NegInf PosInf true k1
    = (Return (v1, m1), k1') ->
  minimax (set_time_left self tl2) game depth true k2
    = (Return (v2, m2), k2') ->
  v1 = v2.
Proof.
  intros Hdead Hab Hmm.
  apply alphabeta_within in Hab.
  - apply within_full_window in Hab.
    unfold minimax in Hmm. apply bind_Return_inv in Hmm.
    destruct Hmm as (u & k & _ & Hmm). apply dls_value in Hmm.
    rewrite Hab, Hmm. now apply minimax_value_agree.
  - exact I.
  - revert Hdead. now apply dead_ends_scored_agree.
Qed.

(** On the example board the default evaluation scores dead ends as the
    amended C1 asks, whenever the agent is the player to move on the
    maximizing layers. *)
Lemma custom_score_scores_dead_ends (self : @CustomPlayer Isolation.board)
    (depth : nat) :
  score self = @custom_score Isolation.board ->
  forall (mx : bool) (st : Isolation.State),
    Isolation.active st = (if mx then ident self else negb (ident self)) ->
    dead_ends_scored self depth mx st.
Proof.
  intros Hs. induction depth as [|d IH]; intros mx st Hact; simpl; trivial.
  destruct (Isolation.legal_moves st None) as [|c cs] eqn:E.
  - rewrite Hs. unfold custom_score. simpl.
    unfold Isolation.loser, Isolation.winner, Isolation.stuck. rewrite E, Hact.
    destruct mx, (ident self); reflexivity.
  - apply Forall_forall. intros c0 _. apply IH. simpl. rewrite Hact.
    destruct mx, (ident self); reflexivity.
Qed.

(** Evaluates the left-hand side of an equation and closes it. *)
Ltac run :=
  match goal with
  | |- ?l = _ => let r := eval vm_compute in l in change l with r; reflexivity
  end.

(** Counterexample to C1 as stated: a 3 x 3 board, the agent on a corner and
    to move, the opponent on the centre, depth 2, [aggressive_chaser] as the
    evaluation function.  After either move of the agent the opponent cannot
    move: [minimax] returns +inf, [alphabeta] returns the evaluation 1. *)
Lemma alphabeta_root_score_differs_at_dead_end :
  let self := set_time_left
                (Isolation.agent Isolation.chaser "alphabeta" false 2 10%Q)
                (Isolation.steady 100%Q) in
  alphabeta self Isolation.corner3 2 NegInf PosInf true 0%nat
    = (Return (Fin (of_int 1), (1, 2)%Z), 3%nat) /\
  minimax self Isolation.corner3 2 true 0%nat
    = (Return (PosInf, (1, 2)%Z), 1%nat) /\
  Fin (of_int 1) <> PosInf.
Proof.
  repeat split; try discriminate; vm_compute; reflexivity.
Qed.

Lemma alphabeta_root_score_is_minimax_score_witness :
  let self := Isolation.agent (@custom_score Isolation.board) "alphabeta" false 3 10%Q in
  exists v1 m1 k1 v2 m2 k2,
    alphabeta (set_time_left self (Isolation.steady 100%Q)) Isolation.corners4 3
      NegInf PosInf true 0%nat = (Return (v1, m1), k1) /\
    minimax (set_time_left self (Isolation.expiring 1 50%Q)) Isolation.corners4 3
      true 0%nat = (Return (v2, m2), k2) /\
    v1 = v2.
Proof.
  intros self. do 6 eexists.
  split; [run|]. split; [run|].
  eapply (@alphabeta_root_score_is_minimax_score Isolation.board self
            Isolation.corners4 3 (Isolation.steady 100%Q)
            (Isolation.expiring 1 50%Q) 0 0).
  - apply custom_score_scores_dead_ends; reflexivity.
  - run.
  - run.
Defined.

(** ** The evaluation functions *)

Import Isolation.

(** Two results that are the same finite score. *)
Ltac same_score :=
  vm_compute; do 2 f_equal; apply Qc_is_canon; reflexivity.

(** What [percent_occupation] computes: the blank cells over all cells. *)
Lemma percent_occupation_counts_blank_cells {B : Board} (game : Game) :
  (width game * height game)%Z <> 0%Z ->
  percent_occupation game
  = Return (of_int (len (get_blank_spaces game))
            / of_int (width game * height game))%Qc.
Proof.
  intros H. unfold percent_occupation, fdiv.
  destruct (Qc_eq_dec (of_int (width game * height game)) (of_int 0)) as [E|E];
    trivial.
  exfalso. apply H. unfold of_int in E. apply Q2Qc_eq_iff in E as Hq.
  unfold Qeq in Hq. simpl in Hq. lia.
Qed.

(** C2: on a 7 x 7 board with the agent on (3,3), the opponent on (0,0)
    and the 47 other cells blank (8 own moves, 2 opponent moves, distance 6),
    [third_heuristic] returns 8 + 6 - 47/49 - 2 = 541/49: it subtracts the
    fraction of blank cells.  As the specification words it, with the
    occupied cells over all cells, the value is 8 + 6 - 2/49 - 2 = 586/49. *)
Theorem third_heuristic_subtracts_blank_fraction :
  len (get_legal_moves Isolation.middle7 (Some true)) = 8%Z /\
  len (get_legal_moves Isolation.middle7 (Some false)) = 2%Z /\
  distance_to_opponent Isolation.middle7 true = Return 6%Z /\
  len (get_blank_spaces Isolation.middle7) = 47%Z /\
  third_heuristic Isolation.middle7 true = Return (Fin (Q2Qc (541 # 49))) /\
  custom_score Isolation.middle7 true = Return (Fin (Q2Qc (541 # 49))) /\
  third_heuristic_spec Isolation.middle7 true = Return (Fin (Q2Qc (586 # 49))) /\
  Q2Qc (541 # 49) <> Q2Qc (586 # 49).
Proof.
  repeat split; try reflexivity; try same_score.
  intros H. apply (f_equal this) in H. vm_compute in H. discriminate.
Qed.

(** C8: on the same board [second_heuristic] returns 8 / (47/49) = 392/47,
    the own moves over the fraction of blank cells; over the fraction of
    occupied cells the value is 8 / (2/49) = 196. *)
Theorem second_heuristic_divides_by_blank_fraction :
  len (get_legal_moves Isolation.middle7 (Some true)) = 8%Z /\
  len (get_blank_spaces Isolation.middle7) = 47%Z /\
  second_heuristic Isolation.middle7 true = Return (Fin (Q2Qc (392 # 47))) /\
  second_heuristic_spec Isolation.middle7 true = Return (Fin (Q2Qc (196 # 1))) /\
  Q2Qc (392 # 47) <> Q2Qc (196 # 1).
Proof.
  repeat split; try reflexivity; try same_score.
  intros H. apply (f_equal this) in H. vm_compute in H. discriminate.
Qed.

Lemma third_heuristic_is_finite {B : Board} (game : Game) (player : Player)
    (v : Score) :
  third_heuristic game player = Return v -> exists q, v = Fin q.
Proof.
  unfold third_heuristic.
  destruct (distance_to_opponent game player) as [d|e]; simpl; [|discriminate].
  destruct (percent_occupation game) as [o|e]; simpl; [|discriminate].
  intros H. inversion H. eauto.
Qed.

(** Counterexample to C7 as stated: on the 3 x 3 board with player 1 on a
    corner and to move and player 2 on the centre, player 2 has no legal
    moves.  The board reports nobody as loser or winner, since the stuck
    player is not the one to move, and [custom_score] returns a finite score
    for player 2 (not -inf) and for player 1 (not +inf). *)
Lemma custom_score_of_stuck_player_not_to_move :
  get_legal_moves corner3 (Some false) = [] /\
  get_legal_moves corner3 (Some true) = [(1, 2); (2, 1)]%Z /\
  is_loser corner3 false = false /\ is_winner corner3 true = false /\
  (exists q, custom_score corner3 false = Return (Fin q)) /\
  custom_score corner3 false <> Return NegInf /\
  (exists q, custom_score corner3 true = Return (Fin q)) /\
  custom_score corner3 true <> Return PosInf.
Proof.
  repeat split; try reflexivity;
    try (vm_compute; discriminate);
    vm_compute; eexists; reflexivity.
Qed.

(** C7, as amended: [custom_score] returns minus infinity exactly when the
    board reports the designated player as loser ([game.is_loser]) and plus
    infinity exactly when it does not and reports the player as winner
    ([game.is_winner]); both answers are given before the heuristic is
    reached, whatever [third_heuristic] does on the state, and where the
    board reports neither the score is that of the heuristic, with or
    without legal moves. *)
Theorem custom_score_follows_the_board {B : Board} (game : Game) (player : Player) :
  (custom_score game player = Return NegInf <-> is_loser game player = true) /\
  (custom_score game player = Return PosInf <->
   is_loser game player = false /\ is_winner game player = true) /\
  (is_loser game player = false -> is_winner game player = false ->
   custom_score game player = third_heuristic game player).
Proof.
  unfold custom_score.
  destruct (is_loser game player), (is_winner game player);
    (split; [|split]); try split; intros;
    repeat match goal with H : _ /\ _ |- _ => destruct H end;
    try reflexivity; try discriminate; try (split; reflexivity);
    match goal with
    | H : third_heuristic _ _ = Return _ |- _ =>
        apply third_heuristic_is_finite in H; destruct H; discriminate
    end.
Qed.

(** A state reported as lost on which the heuristic raises, a state
    reported as won, and a state with a stuck player that is reported as
    neither. *)
Lemma custom_score_follows_the_board_witness :
  (third_heuristic void true = Raise TypeError /\
   custom_score void true = Return NegInf) /\
  custom_score corner3_stuck true = Return PosInf /\
  custom_score corner3 false = third_heuristic corner3 false.
Proof.
  destruct (@custom_score_follows_the_board board void true) as (H1 & _).
  destruct (@custom_score_follows_the_board board corner3_stuck true)
    as (_ & H2 & _).
  destruct (@custom_score_follows_the_board board corner3 false)
    as (_ & _ & H3).
  split; [split; [reflexivity|]|split].
  - apply H1. reflexivity.
  - apply H2. split; reflexivity.
  - apply H3; reflexivity.
Defined.

(** ** Reading the clock *)

Lemma polled_run_ret {A} (tl : nat -> Q) (thr : Q) (k : nat) (a : A) :
  polled_run tl thr k (Return a) k.
Proof.
  repeat split; trivial; try lia; discriminate.
Qed.

Lemma polled_run_lift {A} (tl : nat -> Q) (thr : Q) (k : nat) (o : outcome A) :
  o <> Raise Timeout -> polled_run tl thr k o k.
Proof.
  intros H. repeat split; trivial; try lia. contradiction.
Qed.

Lemma polled_run_bind {A C} (tl : nat -> Q) (thr : Q) (m : M A) (f : A -> M C) :
  (forall k r k', m k = (r, k') -> polled_run tl thr k r k') ->
  (forall a k r k', f a k = (r, k') -> polled_run tl thr k r k') ->
  forall k r k', bind m f k = (r, k') -> polled_run tl thr k r k'.
Proof.
  intros Hm Hf k r k'. unfold bind.
  destruct (m k) as [[a|e] k1] eqn:E; intros H.
  - apply Hm in E. apply Hf in H.
    destruct E as (L1 & P1 & _), H as (L2 & P2 & T2).
    split; [lia|]. split.
    + intros j Hj Hlow. destruct (Nat.lt_ge_cases j k1) as [Hlt|Hge].
      * destruct (P1 j) as [D _]; [lia|exact Hlow|discriminate].
      * apply P2; [lia|exact Hlow].
    + intros Hr. destruct (T2 Hr) as (j & Hj & Hk & Hlow).
      exists j. repeat split; trivial; lia.
  - inversion H; subst. apply Hm in E. destruct E as (L1 & P1 & T1).
    split; [lia|]. split.
    + intros j Hj Hlow. destruct (P1 j Hj Hlow) as [D ?].
      inversion D; subst. auto.
    + intros Hr. inversion Hr; subst. now apply T1.
Qed.

Section Polling.
Context {B : Board}.
Variable self : CustomPlayer.
Variable tl : nat -> Q.
Hypothesis clock : time_left self = Some tl.

Lemma check_time_run (k : nat) :
  check_time self k
  = if Qlt_le_dec (tl k) (TIMER_THRESHOLD self)
    then (Raise Timeout, S k) else (Return tt, S k).
Proof.
  unfold check_time, call_time_left, bind. rewrite clock.
  destruct (Qlt_le_dec (tl k) (TIMER_THRESHOLD self)); reflexivity.
Qed.

Lemma check_time_low (k : nat) :
  (tl k < TIMER_THRESHOLD self)%Q -> check_time self k = (Raise Timeout, S k).
Proof.
  intros H. rewrite check_time_run.
  destruct (Qlt_le_dec (tl k) (TIMER_THRESHOLD self)) as [L|L]; trivial.
  exfalso. exact (Qle_not_lt _ _ L H).
Qed.

Lemma check_time_high (k : nat) :
  ~ (tl k < TIMER_THRESHOLD self)%Q -> check_time self k = (Return tt, S k).
Proof.
  intros H. rewrite check_time_run.
  destruct (Qlt_le_dec (tl k) (TIMER_THRESHOLD self)) as [L|L]; trivial.
  contradiction.
Qed.

Lemma check_time_polled (k : nat) (r : outcome unit) (k' : nat) :
  check_time self k = (r, k') ->
  polled_run tl (TIMER_THRESHOLD self) k r k' /\ k' = S k.
Proof.
  rewrite check_time_run.
  destruct (Qlt_le_dec (tl k) (TIMER_THRESHOLD self)) as [L|L];
    intros H; inversion H; subst; split; trivial.
  - split; [lia|]. split.
    + intros j Hj _. assert (j = k) by lia. subst. auto.
    + intros _. exists k. auto.
  - split; [lia|]. split.
    + intros j Hj Hlow. assert (j = k) by lia. subst.
      exfalso. exact (Qle_not_lt _ _ L Hlow).
    + discriminate.
Qed.

Hypothesis score_no_timeout : forall g p, score self g p <> Raise Timeout.

Lemma leaf_polled (game : Game) (k : nat) (r : outcome (Score * Move)) (k' : nat) :
  leaf self game k = (r, k') -> polled_run tl (TIMER_THRESHOLD self) k r k'.
Proof.
  unfold leaf, bind, lift, ret.
  destruct (score self game (ident self)) as [v|e] eqn:E;
    intros H; inversion H; subst.
  - apply polled_run_ret.
  - apply polled_run_lift. intros D. inversion D; subst.
    exact (score_no_timeout _ _ E).
Qed.

Lemma ab_max_loop_polled (rec : Game -> Score -> Score -> M (Score * Move))
    (game : Game) (children : list Move) :
  (forall g a b k r k', rec g a b k = (r, k') ->
                        polled_run tl (TIMER_THRESHOLD self) k r k') ->
  forall alpha beta best bm k r k',
    ab_max_loop rec game children alpha beta best bm k = (r, k') ->
    polled_run tl (TIMER_THRESHOLD self) k r k'.
Proof.
  intros Hrec. induction children as [|c cs IH]; simpl;
    intros alpha beta best bm k r k' H.
  - inversion H; subst. apply polled_run_ret.
  - revert H. apply polled_run_bind.
    + intros k0 r0 k0'. apply Hrec.
    + intros [v mv] k0 r0 k0'.
      destruct (score_ltb best v);
        match goal with
        | |- context [if ?c then _ else _] => destruct c
        end; intros H;
        try (inversion H; subst; apply polled_run_ret);
        eapply IH; exact H.
Qed.

Lemma ab_min_loop_polled (rec : Game -> Score -> Score -> M (Score * Move))
    (game : Game) (children : list Move) :
  (forall g a b k r k', rec g a b k = (r, k') ->
                        polled_run tl (TIMER_THRESHOLD self) k r k') ->
  forall alpha beta best bm k r k',
    ab_min_loop rec game children alpha beta best bm k = (r, k') ->
    polled_run tl (TIMER_THRESHOLD self) k r k'.
Proof.
  intros Hrec. induction children as [|c cs IH]; simpl;
    intros alpha beta best bm k r k' H.
  - inversion H; subst. apply polled_run_ret.
  - revert H. apply polled_run_bind.
    + intros k0 r0 k0'. apply Hrec.
    + intros [v mv] k0 r0 k0'.
      destruct (score_ltb v best);
        match goal with
        | |- context [if ?c then _ else _] => destruct c
        end; intros H;
        try (inversion H; subst; apply polled_run_ret);
        eapply IH; exact H.
Qed.

Lemma alphabeta_polled (depth : nat) :
  forall game alpha beta mx k r k',
    alphabeta self game depth alpha beta mx k = (r, k') ->
    polled_run tl (TIMER_THRESHOLD self) k r k'.
Proof.
  induction depth as [|d IH]; intros game alpha beta mx k r k'; simpl.
  - apply polled_run_bind.
    + intros k0 r0 k0' H. now apply check_time_polled in H.
    + intros _ k0 r0 k0'. apply leaf_polled.
  - apply polled_run_bind.
    + intros k0 r0 k0' H. now apply check_time_polled in H.
    + intros _ k0 r0 k0'. destruct (get_legal_moves game None) as [|c cs].
      * apply leaf_polled.
      * destruct mx.
        -- apply ab_max_loop_polled. intros g a b k1 r1 k1'. apply IH.
        -- apply ab_min_loop_polled. intros g a b k1 r1 k1'. apply IH.
Qed.

End Polling.

Section Descent.
Context {B : Board}.
Variable self : CustomPlayer.

Lemma dls_max_loop_clock (rec : Game -> M (Score * Move)) (game : Game)
    (children : list Move) :
  (forall g k r k', rec g k = (r, k') -> k' = k) ->
  forall best bm k r k',
    dls_max_loop rec game children best bm k = (r, k') -> k' = k.
Proof.
  intros Hrec. induction children as [|c cs IH]; simpl; intros best bm k r k' H.
  - now inversion H.
  - unfold bind in H.
    destruct (rec (forecast_move game c) k) as [[[v mv]|e] k1] eqn:E;
      apply Hrec in E; subst k1.
    + destruct (score_ltb best v); eapply IH; exact H.
    + now inversion H.
Qed.

Lemma dls_min_loop_clock (rec : Game -> M (Score * Move)) (game : Game)
    (children : list Move) :
  (forall g k r k', rec g k = (r, k') -> k' = k) ->
  forall best bm k r k',
    dls_min_loop rec game children best bm k = (r, k') -> k' = k.
Proof.
  intros Hrec. induction children as [|c cs IH]; simpl; intros best bm k r k' H.
  - now inversion H.
  - unfold bind in H.
    destruct (rec (forecast_move game c) k) as [[[v mv]|e] k1] eqn:E;
      apply Hrec in E; subst k1.
    + destruct (score_ltb v best); eapply IH; exact H.
    + now inversion H.
Qed.

(** [dls] never reads the clock: [minimax] reads it once, on entry. *)
Lemma dls_never_polls (depth : nat) :
  forall game mx k r k', dls self game depth mx k = (r, k') -> k' = k.
Proof.
  induction depth as [|d IH]; intros game mx k r k' H; simpl in H.
  - unfold leaf, bind, lift, ret in H.
    destruct (score self game (ident self)); now inversion H.
  - destruct mx.
    + eapply dls_max_loop_clock in H; [exact H|]. intros; eapply IH; eauto.
    + eapply dls_min_loop_clock in H; [exact H|]. intros; eapply IH; eauto.
Qed.

Lemma minimax_polls_once (tl : nat -> Q) (game : Game) (depth : nat) (mx : bool)
    (k : nat) (r : outcome (Score * Move)) (k' : nat) :
  time_left self = Some tl ->
  minimax self game depth mx k = (r, k') -> k' = S k.
Proof.
  intros Hc. unfold minimax, bind. rewrite (check_time_run _ Hc).
  destruct (Qlt_le_dec (tl k) (TIMER_THRESHOLD self)); intros H.
  - now inversion H.
  - now apply dls_never_polls in H.
Qed.

End Descent.

(** C3, as amended: every call of [alphabeta], so every node of its
    recursion and the depth-0 base case too, first reads the clock and
    raises [Timeout] at once when the reading is strictly below
    [TIMER_THRESHOLD]; a reading at the threshold or above lets the node go
    on, the first child is entered by reading the clock again, and over a
    whole run [Timeout] is raised if and only if a reading was strictly below
    the threshold (the evaluation function raising none itself).  [minimax]
    applies the same strict test when it is entered. *)
Theorem alphabeta_polls_clock_on_entry {B : Board} (self : CustomPlayer)
    (tl : nat -> Q) (game : Game) (depth : nat) (alpha beta : Score) (mx : bool)
    (k : nat) :
  time_left self = Some tl ->
  ((tl k < TIMER_THRESHOLD self)%Q ->
   alphabeta self game depth alpha beta mx k = (Raise Timeout, S k) /\
   minimax self game depth mx k = (Raise Timeout, S k)) /\
  (~ (tl k < TIMER_THRESHOLD self)%Q ->
   alphabeta self game 0 alpha beta mx k = leaf self game (S k) /\
   minimax self game depth mx k = dls self game depth mx (S k)) /\
  (~ (tl k < TIMER_THRESHOLD self)%Q ->
   (tl (S k) < TIMER_THRESHOLD self)%Q ->
   get_legal_moves game None <> [] ->
   alphabeta self game (S depth) alpha beta mx k = (Raise Timeout, S (S k))) /\
  ((forall g p, score self g p <> Raise Timeout) ->
   forall r k',
     alphabeta self game depth alpha beta mx k = (r, k') ->
     (k < k')%nat /\
     polled_run tl (TIMER_THRESHOLD self) k r k' /\
     (r = Raise Timeout <->
      exists j, (k <= j < k')%nat /\ (tl j < TIMER_THRESHOLD self)%Q)).
Proof.
  intros Hc. split; [|split; [|split]].
  - intros Hlow. split.
    + destruct depth; simpl; unfold bind;
        now rewrite (check_time_low _ Hc _ Hlow).
    + unfold minimax, bind. now rewrite (check_time_low _ Hc _ Hlow).
  - intros Hhigh. split.
    + simpl. unfold bind. now rewrite (check_time_high _ Hc _ Hhigh).
    + unfold minimax, bind. now rewrite (check_time_high _ Hc _ Hhigh).
  - intros Hhigh Hlow Hmoves. simpl. unfold bind at 1.
    rewrite (check_time_high _ Hc _ Hhigh).
    destruct (get_legal_moves game None) as [|c cs]; [contradiction|].
    assert (Hchild : forall a b,
               alphabeta self (forecast_move game c) depth a b (negb mx) (S k)
               = (Raise Timeout, S (S k))).
    { intros a b. destruct depth; simpl; unfold bind;
        now rewrite (check_time_low _ Hc _ Hlow). }
    destruct mx; simpl; unfold bind; now rewrite Hchild.
  - intros Hscore r k' H.
    assert (Hp : polled_run tl (TIMER_THRESHOLD self) k r k')
      by (eapply alphabeta_polled; eauto).
    assert (Hk : (k < k')%nat).
    { destruct depth; simpl in H; unfold bind in H;
        rewrite (check_time_run _ Hc) in H;
        destruct (Qlt_le_dec (tl k) (TIMER_THRESHOLD self));
        try (inversion H; lia).
      - apply (leaf_polled self tl Hscore) in H; destruct H; lia.
      - destruct (get_legal_moves game None).
        + apply (leaf_polled self tl Hscore) in H; destruct H; lia.
        + destruct mx.
          * apply (@ab_max_loop_polled _ self tl) in H; [destruct H; lia|].
            intros; eapply alphabeta_polled; eauto.
          * apply (@ab_min_loop_polled _ self tl) in H; [destruct H; lia|].
            intros; eapply alphabeta_polled; eauto. }
    split; [exact Hk|]. split; [exact Hp|].
    destruct Hp as (_ & P & T). split.
    + intros Hr. destruct (T Hr) as (j & Hj & Hkj & Hlow).
      exists j. split; [lia|exact Hlow].
    + intros (j & Hj & Hlow). now destruct (P j Hj Hlow).
Qed.

Lemma third_heuristic_never_times_out {B : Board} (game : Game) (player : Player) :
  third_heuristic game player <> Raise Timeout.
Proof.
  unfold third_heuristic, distance_to_opponent, percent_occupation, fdiv, unpack.
  destruct (get_player_location game player) as [[x0 x1]|]; simpl;
    [|discriminate].
  destruct (get_player_location game (get_opponent game player)) as [[y0 y1]|];
    simpl; [|discriminate].
  destruct (Qc_eq_dec _ _); simpl; discriminate.
Qed.

Lemma custom_score_never_times_out {B : Board} (game : Game) (player : Player) :
  custom_score game player <> Raise Timeout.
Proof.
  unfold custom_score.
  destruct (is_loser game player); [discriminate|].
  destruct (is_winner game player); [discriminate|].
  apply third_heuristic_never_times_out.
Qed.

(** A run that returns a finite score, by evaluation. *)
Ltac same_run :=
  vm_compute;
  apply f_equal2;
    [apply f_equal; apply f_equal2;
       [apply f_equal; apply Qc_is_canon; reflexivity | reflexivity]
    | reflexivity].

(** Counterexample to C3 as stated: with 10 ms left and a threshold of 10 ms
    the remaining time is "at or below" the threshold, and neither search
    raises [Timeout]: both score the state. *)
Lemma searches_run_at_the_threshold :
  let self := set_time_left
                (agent (@custom_score board) "alphabeta" true 3 10%Q)
                (steady 10%Q) in
  (steady 10%Q 0%nat <= TIMER_THRESHOLD self)%Q /\
  alphabeta self corners4 0 NegInf PosInf true 0%nat
    = (Return (Fin (Q2Qc (41 # 8)), no_move), 1%nat) /\
  minimax self corners4 0 true 0%nat
    = (Return (Fin (Q2Qc (41 # 8)), no_move), 1%nat).
Proof.
  split; [|split].
  - vm_compute. discriminate.
  - same_run.
  - same_run.
Qed.

(** The clock reads 100 ms at the first call and 0 ms afterwards, the
    threshold is 10 ms. *)
Lemma alphabeta_polls_clock_on_entry_witness :
  let tl := expiring 1 100%Q in
  let self := set_time_left
                (agent (@custom_score board) "alphabeta" true 3 10%Q) tl in
  alphabeta self corners4 2 NegInf PosInf true 1%nat = (Raise Timeout, 2%nat) /\
  minimax self corners4 2 true 1%nat = (Raise Timeout, 2%nat) /\
  alphabeta self corners4 0 NegInf PosInf true 0%nat = leaf self corners4 1%nat /\
  alphabeta self corners4 2 NegInf PosInf true 0%nat = (Raise Timeout, 2%nat) /\
  (exists j, (0 <= j < 2)%nat /\ (tl j < 10)%Q).
Proof.
  intros tl self.
  assert (Hlow : (tl 1%nat < TIMER_THRESHOLD self)%Q) by reflexivity.
  assert (Hhigh : ~ (tl 0%nat < TIMER_THRESHOLD self)%Q)
    by (intros H; vm_compute in H; discriminate).
  destruct (@alphabeta_polls_clock_on_entry board self tl corners4 2
              NegInf PosInf true 1 eq_refl) as (E1 & _).
  destruct (@alphabeta_polls_clock_on_entry board self tl corners4 0
              NegInf PosInf true 0 eq_refl) as (_ & E2 & _).
  destruct (@alphabeta_polls_clock_on_entry board self tl corners4 1
              NegInf PosInf true 0 eq_refl) as (_ & _ & E3 & _).
  destruct (@alphabeta_polls_clock_on_entry board self tl corners4 2
              NegInf PosInf true 0 eq_refl) as (_ & _ & _ & E4).
  split; [exact (proj1 (E1 Hlow))|].
  split; [exact (proj2 (E1 Hlow))|].
  split; [exact (proj1 (E2 Hhigh))|].
  assert (E : alphabeta self corners4 2 NegInf PosInf true 0%nat
              = (Raise Timeout, 2%nat)).
  { apply (E3 Hhigh Hlow). discriminate. }
  split; [exact E|].
  apply (E4 (fun g p => @custom_score_never_times_out board g p) _ _ E).
  reflexivity.
Defined.

(** ** The move kept by a minimizing layer of alpha-beta *)

Section MinLayer.
Context {B : Board}.
Variable self : CustomPlayer.

Lemma ab_min_loop_keeps_returned_moves
    (rec : Game -> Score -> Score -> M (Score * Move)) (game : Game)
    (P : Move -> Prop) (children : list Move) :
  (forall g a b k v m k', rec g a b k = (Return (v, m), k') -> P m) ->
  forall alpha beta best bm k v m k',
    P bm ->
    ab_min_loop rec game children alpha beta best bm k = (Return (v, m), k') ->
    P m.
Proof.
  intros Hrec. induction children as [|c cs IH]; simpl;
    intros alpha beta best bm k v m k' Hbm H.
  - inversion H; subst; exact Hbm.
  - apply bind_Return_inv in H. destruct H as ([v1 m1] & k1 & Hc & H).
    apply Hrec in Hc.
    destruct (score_ltb v1 best);
      match type of H with
      | context [if ?c then _ else _] => destruct c
      end;
      try (inversion H; subst; assumption);
      eapply IH; try exact H; assumption.
Qed.

(** Directly above the leaves a minimizing layer of [alphabeta] returns the
    sentinel, whatever its legal moves and their scores are. *)
Lemma alphabeta_min_above_leaves_returns_no_move (game : Game)
    (alpha beta : Score) (k k' : nat) (v : Score) (m : Move) :
  alphabeta self game 1 alpha beta false k = (Return (v, m), k') ->
  m = no_move.
Proof.
  simpl. intros H. apply bind_Return_inv in H. destruct H as (u & k1 & _ & H).
  destruct (get_legal_moves game None) as [|c cs].
  - unfold leaf, bind, lift, ret in H.
    destruct (score self game (ident self)); now inversion H.
  - eapply (ab_min_loop_keeps_returned_moves _ _ (fun m => m = no_move)) in H;
      trivial.
    intros g a b k0 v0 m0 k0' H0. apply bind_Return_inv in H0.
    destruct H0 as (u0 & k2 & _ & H0). unfold leaf, bind, lift, ret in H0.
    destruct (score self g (ident self)); now inversion H0.
Qed.

End MinLayer.

(** C4: a 5 x 5 board, the opponent on (4,4) and to move with the legal
    moves (2,3) and (3,2), the agent on (0,0); a minimizing node.  At depth 1
    the first child improves on +inf and [alphabeta] still returns the
    sentinel; at depth 2 it returns (1,2), the agent's reply to the best
    child and not a legal move of the node.  [dls] returns the child (2,3)
    with the same scores. *)
Theorem alphabeta_min_layer_keeps_move_of_recursive_call :
  let self := set_time_left
                (agent (@custom_score board) "alphabeta" false 2 10%Q)
                (steady 100%Q) in
  get_legal_moves corners5 None = [(2, 3); (3, 2)]%Z /\
  alphabeta self corners5 1 NegInf PosInf false 0%nat
    = (Return (Fin (Q2Qc (28 # 25)), no_move), 3%nat) /\
  alphabeta self corners5 2 NegInf PosInf false 0%nat
    = (Return (Fin (Q2Qc (29 # 25)), (1, 2)%Z), 6%nat) /\
  ~ In (1, 2)%Z (get_legal_moves corners5 None) /\
  dls self corners5 1 false 0%nat
    = (Return (Fin (Q2Qc (28 # 25)), (2, 3)%Z), 0%nat) /\
  dls self corners5 2 false 0%nat
    = (Return (Fin (Q2Qc (29 # 25)), (2, 3)%Z), 0%nat).
Proof.
  repeat split; try same_run.
  intros [H|[H|[]]]; discriminate.
Qed.

(** ** Move selection *)

Section Selection.
Context {B : Board}.

Lemma select_search_minimax (self : CustomPlayer) :
  method self = "minimax"%string ->
  select_search self = Some (fun game depth arg => minimax self game depth arg).
Proof. unfold select_search. intros ->. reflexivity. Qed.

Lemma select_search_alphabeta (self : CustomPlayer) :
  method self = "alphabeta"%string ->
  select_search self
  = Some (fun game depth arg =>
            alphabeta self game depth (of_bool arg) PosInf true).
Proof. unfold select_search. intros ->. reflexivity. Qed.

Lemma select_search_unrecognised (self : CustomPlayer) :
  method self <> "minimax"%string -> method self <> "alphabeta"%string ->
  select_search self = None.
Proof.
  unfold select_search. intros H1 H2.
  destruct (String.eqb_spec (method self) "minimax"); [contradiction|].
  destruct (String.eqb_spec (method self) "alphabeta"); [contradiction|].
  reflexivity.
Qed.

(** A search that starts below the threshold is over after one reading. *)
Lemma call_search_low (self : CustomPlayer) (tl : nat -> Q) (game : Game)
    (depth : nat) (arg : bool) (k : nat) :
  time_left self = Some tl ->
  method self = "minimax"%string \/ method self = "alphabeta"%string ->
  (tl k < TIMER_THRESHOLD self)%Q ->
  call_search (select_search self) game depth arg k = (Raise Timeout, S k).
Proof.
  intros Hc [Hm|Hm] Hlow.
  - rewrite (select_search_minimax _ Hm). simpl.
    unfold minimax, bind. now rewrite (check_time_low _ Hc _ Hlow).
  - rewrite (select_search_alphabeta _ Hm). simpl.
    destruct depth; simpl; unfold bind; now rewrite (check_time_low _ Hc _ Hlow).
Qed.

Lemma get_move_timeout_in_first_search (fuel : nat) (self : CustomPlayer)
    (game : Game) (legal_moves : list Move) (tl : nat -> Q) (k : nat) :
  legal_moves <> [] ->
  len (get_legal_moves game None) <> (width game * height game)%Z ->
  method self = "minimax"%string \/ method self = "alphabeta"%string ->
  (tl k < TIMER_THRESHOLD self)%Q ->
  (iterative self = true -> (0 < fuel)%nat) ->
  get_move fuel self game legal_moves tl k = Some (Return None, S k).
Proof.
  intros Hl Hopen Hm Hlow Hfuel. unfold get_move.
  destruct legal_moves as [|m0 ms]; [contradiction|].
  apply Z.eqb_neq in Hopen. rewrite Hopen.
  assert (Hcall : forall d,
             call_search (select_search (set_time_left self tl)) game d true k
             = (Raise Timeout, S k)).
  { intros d. apply call_search_low with (tl := tl); trivial. }
  simpl iterative. destruct (iterative self).
  - destruct fuel as [|fuel]; [specialize (Hfuel eq_refl); lia|].
    simpl. now rewrite Hcall.
  - now rewrite Hcall.
Qed.

End Selection.

(** C5: the agent to move on a 4 x 4 board with two legal moves, the clock
    already below the threshold at the first reading.  The search raises
    [Timeout] before any depth completes and [get_move] returns the initial
    value of its variable [move], Python's [None], not the sentinel
    (-1, -1); so with either method, iterative or not. *)
Theorem get_move_returns_None_when_no_depth_completes :
  let moves := get_legal_moves corners4 None in
  let run meth iter :=
    get_move 1 (agent (@custom_score board) meth iter 3 10%Q) corners4 moves
      (steady 5%Q) 0%nat in
  moves = [(1, 2); (2, 1)]%Z /\
  run "minimax"%string true = Some (Return None, 1%nat) /\
  run "alphabeta"%string true = Some (Return None, 1%nat) /\
  run "minimax"%string false = Some (Return None, 1%nat) /\
  run "alphabeta"%string false = Some (Return None, 1%nat) /\
  @None Move <> Some no_move.
Proof.
  repeat split; try discriminate; vm_compute; reflexivity.
Qed.

Section ClockAdvances.
Context {B : Board}.
Variable self : CustomPlayer.
Variable tl : nat -> Q.
Hypothesis clock : time_left self = Some tl.

Lemma leaf_clock (game : Game) (k : nat) (r : outcome (Score * Move)) (k' : nat) :
  leaf self game k = (r, k') -> k' = k.
Proof.
  unfold leaf, bind, lift, ret.
  destruct (score self game (ident self)); intros H; now inversion H.
Qed.

Lemma ab_max_loop_clock_le (rec : Game -> Score -> Score -> M (Score * Move))
    (game : Game) (children : list Move) :
  (forall g a b k r k', rec g a b k = (r, k') -> (k <= k')%nat) ->
  forall alpha beta best bm k r k',
    ab_max_loop rec game children alpha beta best bm k = (r, k') -> (k <= k')%nat.
Proof.
  intros Hrec. induction children as [|c cs IH]; simpl;
    intros alpha beta best bm k r k' H.
  - inversion H; lia.
  - unfold bind in H.
    destruct (rec (forecast_move game c) alpha beta k) as [[[v mv]|e] k1] eqn:E;
      apply Hrec in E; [|inversion H; lia].
    destruct (score_ltb best v);
      match type of H with
      | context [if ?c then _ else _] => destruct c
      end;
      try (inversion H; lia);
      apply IH in H; lia.
Qed.

Lemma ab_min_loop_clock_le (rec : Game -> Score -> Score -> M (Score * Move))
    (game : Game) (children : list Move) :
  (forall g a b k r k', rec g a b k = (r, k') -> (k <= k')%nat) ->
  forall alpha beta best bm k r k',
    ab_min_loop rec game children alpha beta best bm k = (r, k') -> (k <= k')%nat.
Proof.
  intros Hrec. induction children as [|c cs IH]; simpl;
    intros alpha beta best bm k r k' H.
  - inversion H; lia.
  - unfold bind in H.
    destruct (rec (forecast_move game c) alpha beta k) as [[[v mv]|e] k1] eqn:E;
      apply Hrec in E; [|inversion H; lia].
    destruct (score_ltb v best);
      match type of H with
      | context [if ?c then _ else _] => destruct c
      end;
      try (inversion H; lia);
      apply IH in H; lia.
Qed.

(** Every call of [alphabeta] reads the clock at least once. *)
Lemma alphabeta_reads_clock (depth : nat) :
  forall game alpha beta mx k r k',
    alphabeta self game depth alpha beta mx k = (r, k') -> (k < k')%nat.
Proof.
  induction depth as [|d IH]; intros game alpha beta mx k r k'; simpl;
    unfold bind at 1; rewrite (check_time_run _ clock);
    destruct (Qlt_le_dec (tl k) (TIMER_THRESHOLD self));
    intros H; try (inversion H; lia).
  - apply leaf_clock in H. lia.
  - destruct (get_legal_moves game None).
    + apply leaf_clock in H. lia.
    + destruct mx.
      * apply ab_max_loop_clock_le in H; [lia|].
        intros g a b k0 r0 k0' H0. apply IH in H0. lia.
      * apply ab_min_loop_clock_le in H; [lia|].
        intros g a b k0 r0 k0' H0. apply IH in H0. lia.
Qed.

(** Whatever [get_move] dispatches to reads the clock when it is called. *)
Lemma search_reads_clock (f : Game -> nat -> bool -> M (Score * Move))
    (game : Game) (depth : nat) (arg : bool) (k : nat)
    (r : outcome (Score * Move)) (k' : nat) :
  select_search self = Some f -> f game depth arg k = (r, k') -> (k < k')%nat.
Proof.
  unfold select_search.
  destruct (String.eqb (method self) "minimax").
  - intros Hf H. inversion Hf; subst.
    apply (minimax_polls_once _ _ _ _ _ clock) in H. lia.
  - destruct (String.eqb (method self) "alphabeta"); [|discriminate].
    intros Hf H. inversion Hf; subst. now apply alphabeta_reads_clock in H.
Qed.

End ClockAdvances.

Lemma half_of_double (n : Z) :
  (0 <= n < 2 ^ 53)%Z -> half n = (n / 2)%Z.
Proof.
  intros Hn. unfold half, round53.
  assert (Hs : (Z.log2 (Z.abs n) + 1 - 53 <=? 0)%Z = true).
  { apply Z.leb_le. rewrite Z.abs_eq by lia.
    destruct (Z.eq_dec n 0) as [->|Hz]; [simpl; lia|].
    assert (Z.log2 n < 53)%Z by (apply Z.log2_lt_pow2; lia). lia. }
  rewrite Hs. apply Z.quot_div_nonneg; lia.
Qed.

(** C9: a fresh board of 7 columns and 1 row, whose 7 legal moves are its 7
    cells (0,0) to (0,6).  [get_move] returns (int(width/2), int(height/2))
    = (3,0) where a move is (row, col): the cell is not on the board, whose
    centre cell is (0,3).  On the fresh 7 x 7 board the two agree on (3,3). *)
Theorem get_move_opening_cell_is_transposed :
  let player := agent (@custom_score board) "minimax" true 3 10%Q in
  (width strip7 = 7%Z /\ height strip7 = 1%Z) /\
  get_legal_moves strip7 None
  = [(0, 0); (0, 1); (0, 2); (0, 3); (0, 4); (0, 5); (0, 6)]%Z /\
  get_move 0 player strip7 (get_legal_moves strip7 None) (steady 100%Q) 0%nat
  = Some (Return (Some (3, 0)%Z), 0%nat) /\
  ~ In (3, 0)%Z (get_blank_spaces strip7) /\
  centre_cell strip7 = (0, 3)%Z /\
  In (0, 3)%Z (get_legal_moves strip7 None) /\
  get_move 0 player fresh7 (get_legal_moves fresh7 None) (steady 100%Q) 0%nat
  = Some (Return (Some (centre_cell fresh7)), 0%nat) /\
  centre_cell fresh7 = (3, 3)%Z.
Proof.
  repeat split; try reflexivity.
  - intros H. vm_compute in H.
    repeat (destruct H as [H|H]; [discriminate|]). exact H.
  - vm_compute. tauto.
Qed.

(** C10: with a method other than 'minimax' and 'alphabeta', a non-empty
    list of legal moves and a board that is not in the opening position,
    [get_move] raises: its [search] is still [None] when it is called, the
    [TypeError] is not a [Timeout] and leaves [get_move]; no move comes
    back and the clock has not been read. *)
Theorem get_move_unrecognised_method_raises {B : Board} (fuel : nat)
    (self : CustomPlayer) (game : Game) (legal_moves : list Move)
    (tl : nat -> Q) (k : nat) :
  method self <> "minimax"%string ->
  method self <> "alphabeta"%string ->
  legal_moves <> [] ->
  len (get_legal_moves game None) <> (width game * height game)%Z ->
  (0 < fuel)%nat ->
  select_search (set_time_left self tl) = None /\
  get_move fuel self game legal_moves tl k = Some (Raise TypeError, k).
Proof.
  intros H1 H2 Hl Hopen Hfuel.
  assert (Hs : select_search (set_time_left self tl) = None)
    by now apply select_search_unrecognised.
  split; [exact Hs|]. unfold get_move.
  destruct legal_moves as [|m0 ms]; [contradiction|].
  apply Z.eqb_neq in Hopen. rewrite Hopen, Hs. simpl iterative.
  destruct (iterative self).
  - destruct fuel as [|fuel]; [lia|]. reflexivity.
  - reflexivity.
Qed.

Lemma get_move_unrecognised_method_raises_witness :
  get_move 1 (agent (@custom_score board) "negamax" true 3 10%Q) corners4
    (get_legal_moves corners4 None) (steady 100%Q) 0%nat
  = Some (Raise TypeError, 0%nat) /\
  get_move 1 (agent (@custom_score board) "negamax" false 3 10%Q) corners4
    (get_legal_moves corners4 None) (steady 100%Q) 0%nat
  = Some (Raise TypeError, 0%nat).
Proof.
  split;
    apply (@get_move_unrecognised_method_raises board);
    try discriminate; lia.
Defined.

(** ** Iterative deepening *)

Section Replay.
Context {B : Board}.
Variables self self' : CustomPlayer.
Hypothesis same_score : score self = score self'.
Hypothesis same_ident : ident self = ident self'.
Hypothesis same_method : method self = method self'.
Hypothesis enough_time : ample self'.

Lemma leaf_replay (game : Game) (k k1 : nat) (r : Score * Move) :
  leaf self game k = (Return r, k1) ->
  forall k', leaf self' game k' = (Return r, k').
Proof.
  unfold leaf, bind, lift, ret. rewrite same_score, same_ident.
  destruct (score self' game (ident self')); intros H k'; now inversion H.
Qed.

Lemma check_time_ample (k : nat) : check_time self' k = (Return tt, S k).
Proof.
  destruct enough_time as (tl & Hc & Hle). now apply check_time_high with (tl := tl).
Qed.

Lemma dls_max_loop_replay (rec rec' : Game -> M (Score * Move)) (game : Game)
    (children : list Move) :
  (forall g k r k1, rec g k = (Return r, k1) ->
                    forall k', rec' g k' = (Return r, k')) ->
  forall best bm k r k1,
    dls_max_loop rec game children best bm k = (Return r, k1) ->
    forall k', dls_max_loop rec' game children best bm k' = (Return r, k').
Proof.
  intros Hrec. induction children as [|c cs IH]; simpl;
    intros best bm k r k1 H k'.
  - now inversion H.
  - apply bind_Return_inv in H. destruct H as ([v mv] & k2 & Hc & H).
    unfold bind. rewrite (Hrec _ _ _ _ Hc k').
    destruct (score_ltb best v); eapply IH; exact H.
Qed.

Lemma dls_min_loop_replay (rec rec' : Game -> M (Score * Move)) (game : Game)
    (children : list Move) :
  (forall g k r k1, rec g k = (Return r, k1) ->
                    forall k', rec' g k' = (Return r, k')) ->
  forall best bm k r k1,
    dls_min_loop rec game children best bm k = (Return r, k1) ->
    forall k', dls_min_loop rec' game children best bm k' = (Return r, k').
Proof.
  intros Hrec. induction children as [|c cs IH]; simpl;
    intros best bm k r k1 H k'.
  - now inversion H.
  - apply bind_Return_inv in H. destruct H as ([v mv] & k2 & Hc & H).
    unfold bind. rewrite (Hrec _ _ _ _ Hc k').
    destruct (score_ltb v best); eapply IH; exact H.
Qed.

Lemma dls_replay (depth : nat) :
  forall game mx k r k1,
    dls self game depth mx k = (Return r, k1) ->
    forall k', dls self' game depth mx k' = (Return r, k').
Proof.
  induction depth as [|d IH]; intros game mx k r k1 H k'; simpl in *.
  - eapply leaf_replay; exact H.
  - destruct mx.
    + eapply dls_max_loop_replay; [|exact H].
      intros g k0 r0 k2 H0. eapply IH; exact H0.
    + eapply dls_min_loop_replay; [|exact H].
      intros g k0 r0 k2 H0. eapply IH; exact H0.
Qed.

Lemma ab_max_loop_replay (rec rec' : Game -> Score -> Score -> M (Score * Move))
    (game : Game) (children : list Move) :
  (forall g a b k r k1, rec g a b k = (Return r, k1) ->
                        forall k', exists k1', rec' g a b k' = (Return r, k1')) ->
  forall alpha beta best bm k r k1,
    ab_max_loop rec game children alpha beta best bm k = (Return r, k1) ->
    forall k', exists k1',
      ab_max_loop rec' game children alpha beta best bm k' = (Return r, k1').
Proof.
  intros Hrec. induction children as [|c cs IH]; simpl;
    intros alpha beta best bm k r k1 H k'.
  - inversion H; subst. now exists k'.
  - apply bind_Return_inv in H. destruct H as ([v mv] & k2 & Hc & H).
    destruct (Hrec _ _ _ _ _ _ Hc k') as (k2' & Hc').
    unfold bind. rewrite Hc'.
    destruct (score_ltb best v);
      match type of H with
      | context [if ?c then _ else _] => destruct c
      end;
      try (inversion H; subst; now exists k2');
      eapply IH; exact H.
Qed.

Lemma ab_min_loop_replay (rec rec' : Game -> Score -> Score -> M (Score * Move))
    (game : Game) (children : list Move) :
  (forall g a b k r k1, rec g a b k = (Return r, k1) ->
                        forall k', exists k1', rec' g a b k' = (Return r, k1')) ->
  forall alpha beta best bm k r k1,
    ab_min_loop rec game children alpha beta best bm k = (Return r, k1) ->
    forall k', exists k1',
      ab_min_loop rec' game children alpha beta best bm k' = (Return r, k1').
Proof.
  intros Hrec. induction children as [|c cs IH]; simpl;
    intros alpha beta best bm k r k1 H k'.
  - inversion H; subst. now exists k'.
  - apply bind_Return_inv in H. destruct H as ([v mv] & k2 & Hc & H).
    destruct (Hrec _ _ _ _ _ _ Hc k') as (k2' & Hc').
    unfold bind. rewrite Hc'.
    destruct (score_ltb v best);
      match type of H with
      | context [if ?c then _ else _] => destruct c
      end;
      try (inversion H; subst; now exists k2');
      eapply IH; exact H.
Qed.

Lemma alphabeta_replay (depth : nat) :
  forall game alpha beta mx k r k1,
    alphabeta self game depth alpha beta mx k = (Return r, k1) ->
    forall k', exists k1',
      alphabeta self' game depth alpha beta mx k' = (Return r, k1').
Proof.
  induction depth as [|d IH]; intros game alpha beta mx k r k1 H k';
    simpl in *; apply bind_Return_inv in H; destruct H as (u & k2 & _ & H);
    unfold bind at 1; rewrite check_time_ample.
  - exists (S k'). eapply leaf_replay; exact H.
  - destruct (get_legal_moves game None) as [|c cs].
    + exists (S k'). eapply leaf_replay; exact H.
    + destruct mx.
      * eapply ab_max_loop_replay; [|exact H].
        intros g a b k0 r0 k3 H0. eapply IH; exact H0.
      * eapply ab_min_loop_replay; [|exact H].
        intros g a b k0 r0 k3 H0. eapply IH; exact H0.
Qed.

(** A search that returned returns the same under any clock that never reads
    below the threshold. *)
Lemma call_search_replay (game : Game) (depth : nat) (arg : bool)
    (k k1 : nat) (r : Score * Move) :
  call_search (select_search self) game depth arg k = (Return r, k1) ->
  forall k', exists k1',
    call_search (select_search self') game depth arg k' = (Return r, k1').
Proof.
  unfold select_search. rewrite <- same_method.
  destruct (String.eqb (method self) "minimax"); simpl.
  - intros H k'. unfold minimax in *.
    apply bind_Return_inv in H. destruct H as (u & k2 & _ & H).
    unfold bind. rewrite check_time_ample. exists (S k').
    eapply dls_replay; exact H.
  - destruct (String.eqb (method self) "alphabeta"); simpl.
    + apply alphabeta_replay.
    + discriminate.
Qed.

End Replay.

Section Deepening.
Context {B : Board}.
Variable self : CustomPlayer.
Variable game : Game.

Lemma deepening_after_completed_depths (d : nat) :
  forall fuel k mv kd,
    completed_depths self game d k = Some (mv, kd) ->
    deepening (d + fuel) (select_search self) game 0 None k
    = deepening fuel (select_search self) game d mv kd.
Proof.
  induction d as [|d IH]; intros fuel k mv kd H; simpl in H.
  - inversion H; subst. reflexivity.
  - destruct (completed_depths self game d k) as [[mv' kd']|] eqn:E;
      [|discriminate].
    destruct (call_search (select_search self) game (S d) true kd')
      as [[[v m]|e] k'] eqn:Ec; [|discriminate].
    inversion H; subst.
    replace (S d + fuel)%nat with (d + S fuel)%nat by lia.
    rewrite (IH (S fuel) k mv' kd' E). simpl.
    replace (d + 1)%nat with (S d) by lia. now rewrite Ec.
Qed.

Lemma completed_depths_last (d : nat) (k : nat) (mv : option Move) (kd : nat) :
  completed_depths self game (S d) k = Some (mv, kd) ->
  exists v m kd', mv = Some m /\
    call_search (select_search self) game (S d) true kd' = (Return (v, m), kd).
Proof.
  simpl. destruct (completed_depths self game d k) as [[mv' kd']|];
    [|discriminate].
  destruct (call_search (select_search self) game (S d) true kd')
    as [[[v m]|e] k'] eqn:Ec; [|discriminate].
  intros H; inversion H; subst. now exists v, m, kd'.
Qed.

End Deepening.

(** C6: with iterative deepening the searches run at depths 1, 2, 3, ...;
    when those of depths 1 to d have returned and the one of depth d+1 raises
    [Timeout], [get_move] returns the move of the search of depth d, which is
    the move that [get_move] returns with fixed-depth search at depth d on
    the same state under a clock that lets it finish. *)
Theorem iterative_deepening_returns_last_completed_depth {B : Board}
    (self : CustomPlayer) (game : Game) (legal_moves : list Move)
    (tl tl' : nat -> Q) (d fuel k kd : nat) (mv : option Move) :
  iterative self = true ->
  legal_moves <> [] ->
  len (get_legal_moves game None) <> (width game * height game)%Z ->
  (1 <= d)%nat ->
  completed_depths (set_time_left self tl) game d k = Some (mv, kd) ->
  fst (call_search (select_search (set_time_left self tl)) game (S d) true kd)
  = Raise Timeout ->
  (forall j, ~ (tl' j < TIMER_THRESHOLD self)%Q) ->
  (d < fuel)%nat ->
  exists m k1 k2,
    mv = Some m /\
    get_move fuel self game legal_moves tl k = Some (Return (Some m), k1) /\
    get_move 0 (fixed_depth self d) game legal_moves tl' k
    = Some (Return (Some m), k2).
Proof.
  intros Hit Hl Hopen Hd Hdone Hcut Hample Hfuel.
  destruct d as [|d]; [lia|].
  destruct (completed_depths_last _ _ _ _ Hdone) as (v & m & kd' & -> & Hlast).
  destruct (call_search (select_search (set_time_left self tl)) game (S (S d))
              true kd) as [rc kc] eqn:Ecut.
  simpl in Hcut. subst rc.
  assert (Hreplay : exists k2,
             call_search
               (select_search (set_time_left (fixed_depth self (S d)) tl'))
               game (S d) true k = (Return (v, m), k2)).
  { eapply call_search_replay with (self := set_time_left self tl);
      try reflexivity; [|exact Hlast].
    exists tl'. split; [reflexivity|exact Hample]. }
  destruct Hreplay as (k2 & Hreplay).
  exists m, kc, k2. split; [reflexivity|].
  unfold get_move. destruct legal_moves as [|m0 ms]; [contradiction|].
  apply Z.eqb_neq in Hopen. rewrite Hopen. simpl iterative. rewrite Hit.
  split.
  - replace fuel with (S d + S (fuel - S (S d)))%nat by lia.
    rewrite (deepening_after_completed_depths _ _ _ _ _ Hdone). simpl.
    replace (S (d + 1)) with (S (S d)) by lia. now rewrite Ecut.
  - simpl search_depth. now rewrite Hreplay.
Qed.

(** A 5 x 5 board, alpha-beta, a clock that reads 100 ms forty times and
    0 ms afterwards: the searches of depths 1 and 2 take 27 readings, the
    one of depth 3 is cut short.  The move is (3,4), that of depth 2; with
    time to finish, depth 3 chooses (1,0). *)
Lemma iterative_deepening_returns_last_completed_depth_witness :
  let self := agent (@custom_score board) "alphabeta" true 7 10%Q in
  let moves := legal_moves centre5 None in
  completed_depths (set_time_left self (expiring 40 100%Q)) centre5 2 0
  = Some (Some (3, 4)%Z, 27%nat) /\
  (exists k1 k2,
     get_move 5 self centre5 moves (expiring 40 100%Q) 0%nat
     = Some (Return (Some (3, 4)%Z), k1) /\
     get_move 0 (fixed_depth self 2) centre5 moves (steady 100%Q) 0%nat
     = Some (Return (Some (3, 4)%Z), k2)) /\
  get_move 0 (fixed_depth self 3) centre5 moves (steady 100%Q) 0%nat
  = Some (Return (Some (1, 0)%Z), 35%nat).
Proof.
  intros self moves.
  assert (Hdone : completed_depths (set_time_left self (expiring 40 100%Q))
                    centre5 2 0 = Some (Some (3, 4)%Z, 27%nat))
    by (vm_compute; reflexivity).
  split; [exact Hdone|]. split; [|vm_compute; reflexivity].
  destruct (@iterative_deepening_returns_last_completed_depth board self
              centre5 moves (expiring 40 100%Q) (steady 100%Q) 2 5 0 27
              (Some (3, 4)%Z))
    as (m & k1 & k2 & Hm & H1 & H2).
  - reflexivity.
  - discriminate.
  - discriminate.
  - lia.
  - exact Hdone.
  - vm_compute. reflexivity.
  - intros j H. vm_compute in H. discriminate.
  - lia.
  - inversion Hm; subst m. exists k1, k2. split; assumption.
Defined.

(** ** With time enough the searches return *)

Section Totality.
Context {B : Board}.
Variable self : CustomPlayer.
Hypothesis enough_time : ample self.
Hypothesis score_returns : forall g, exists v, score self g (ident self) = Return v.

Lemma leaf_returns (game : Game) (k : nat) :
  exists r, leaf self game k = (Return r, k).
Proof.
  destruct (score_returns game) as (v & Hv).
  exists (v, no_move). unfold leaf, bind, lift, ret. now rewrite Hv.
Qed.

Lemma dls_max_loop_returns (rec : Game -> M (Score * Move)) (game : Game)
    (children : list Move) :
  (forall g k, exists r, rec g k = (Return r, k)) ->
  forall best bm k, exists r,
    dls_max_loop rec game children best bm k = (Return r, k).
Proof.
  intros Hrec. induction children as [|c cs IH]; simpl; intros best bm k.
  - now exists (best, bm).
  - destruct (Hrec (forecast_move game c) k) as ([v mv] & Hc).
    unfold bind. rewrite Hc. destruct (score_ltb best v); apply IH.
Qed.

Lemma dls_min_loop_returns (rec : Game -> M (Score * Move)) (game : Game)
    (children : list Move) :
  (forall g k, exists r, rec g k = (Return r, k)) ->
  forall best bm k, exists r,
    dls_min_loop rec game children best bm k = (Return r, k).
Proof.
  intros Hrec. induction children as [|c cs IH]; simpl; intros best bm k.
  - now exists (best, bm).
  - destruct (Hrec (forecast_move game c) k) as ([v mv] & Hc).
    unfold bind. rewrite Hc. destruct (score_ltb v best); apply IH.
Qed.

Lemma dls_returns (depth : nat) :
  forall game mx k, exists r, dls self game depth mx k = (Return r, k).
Proof.
  induction depth as [|d IH]; intros game mx k; simpl.
  - apply leaf_returns.
  - destruct mx.
    + apply dls_max_loop_returns. intros g k0. apply IH.
    + apply dls_min_loop_returns. intros g k0. apply IH.
Qed.

Lemma minimax_returns (game : Game) (depth : nat) (mx : bool) (k : nat) :
  exists r, minimax self game depth mx k = (Return r, S k).
Proof.
  destruct enough_time as (tl & Hc & Hle).
  unfold minimax, bind. rewrite (check_time_high _ Hc _ (Hle k)).
  apply dls_returns.
Qed.

Lemma ab_max_loop_returns (rec : Game -> Score -> Score -> M (Score * Move))
    (game : Game) (children : list Move) :
  (forall g a b k, exists r k', rec g a b k = (Return r, k')) ->
  forall alpha beta best bm k, exists r k',
    ab_max_loop rec game children alpha beta best bm k = (Return r, k').
Proof.
  intros Hrec. induction children as [|c cs IH]; simpl;
    intros alpha beta best bm k.
  - now exists (best, bm), k.
  - destruct (Hrec (forecast_move game c) alpha beta k) as ([v mv] & k1 & Hc).
    unfold bind. rewrite Hc.
    destruct (score_ltb best v);
      match goal with
      | |- context [if ?c then _ else _] => destruct c
      end;
      try apply IH; eexists; eexists; reflexivity.
Qed.

Lemma ab_min_loop_returns (rec : Game -> Score -> Score -> M (Score * Move))
    (game : Game) (children : list Move) :
  (forall g a b k, exists r k', rec g a b k = (Return r, k')) ->
  forall alpha beta best bm k, exists r k',
    ab_min_loop rec game children alpha beta best bm k = (Return r, k').
Proof.
  intros Hrec. induction children as [|c cs IH]; simpl;
    intros alpha beta best bm k.
  - now exists (best, bm), k.
  - destruct (Hrec (forecast_move game c) alpha beta k) as ([v mv] & k1 & Hc).
    unfold bind. rewrite Hc.
    destruct (score_ltb v best);
      match goal with
      | |- context [if ?c then _ else _] => destruct c
      end;
      try apply IH; eexists; eexists; reflexivity.
Qed.

Lemma alphabeta_returns (depth : nat) :
  forall game alpha beta mx k, exists r k',
    alphabeta self game depth alpha beta mx k = (Return r, k').
Proof.
  destruct enough_time as (tl & Hc & Hle).
  induction depth as [|d IH]; intros game alpha beta mx k; simpl;
    unfold bind at 1; rewrite (check_time_high _ Hc _ (Hle k)).
  - destruct (leaf_returns game (S k)) as (r & Hr). eauto.
  - destruct (get_legal_moves game None) as [|c cs].
    + destruct (leaf_returns game (S k)) as (r & Hr). eauto.
    + destruct mx.
      * apply ab_max_loop_returns. intros g a b k0. apply IH.
      * apply ab_min_loop_returns. intros g a b k0. apply IH.
Qed.

(** With time enough and an evaluation function that returns, both searches
    return, and with the same score when dead ends are scored as lost. *)
Lemma alphabeta_and_minimax_return_the_same_score (game : Game) (depth : nat)
    (k1 k2 : nat) :
  dead_ends_scored self depth true game ->
  exists v m1 m2 k1',
    alphabeta self game depth NegInf PosInf true k1 = (Return (v, m1), k1') /\
    minimax self game depth true k2 = (Return (v, m2), S k2).
Proof.
  intros Hdead.
  destruct (alphabeta_returns depth game NegInf PosInf true k1)
    as ([v1 m1] & k1' & Hab).
  destruct (minimax_returns game depth true k2) as ([v2 m2] & Hmm).
  exists v1, m1, m2, k1'. split; [exact Hab|].
  assert (E : v1 = v2).
  { pose proof Hab as Hw. apply alphabeta_within in Hw; [|exact I|exact Hdead].
    apply within_full_window in Hw.
    pose proof Hmm as Hv. unfold minimax in Hv. apply bind_Return_inv in Hv.
    destruct Hv as (u & k & _ & Hv). apply dls_value in Hv. congruence. }
  now rewrite E.
Qed.

End Totality.

(** * Further properties of the code *)

(** ** Integers as floats *)

Lemma of_int_inj (a b : Z) : of_int a = of_int b -> a = b.
Proof.
  unfold of_int. intros H. apply Q2Qc_eq_iff in H.
  exact (proj1 (inject_Z_injective a b) H).
Qed.

Lemma of_int_le (a b : Z) : (a <= b)%Z -> (of_int a <= of_int b)%Qc.
Proof.
  intros H. change (Qred (inject_Z a) <= Qred (inject_Z b))%Q.
  rewrite !Qred_correct. now rewrite <- Zle_Qle.
Qed.

Lemma of_int_lt (a b : Z) : (a < b)%Z -> (of_int a < of_int b)%Qc.
Proof.
  intros H. change (Qred (inject_Z a) < Qred (inject_Z b))%Q.
  rewrite !Qred_correct. now rewrite <- Zlt_Qlt.
Qed.

Lemma Qcdiv_zero (x y : Qc) : y <> of_int 0 -> (x / y)%Qc = of_int 0 -> x = of_int 0.
Proof.
  intros Hy H. change (of_int 0) with (Q2Qc 0) in *.
  assert (E : ((x / y) * y)%Qc = x) by (field; exact Hy).
  rewrite <- E, H. ring.
Qed.

Section HeuristicEdges.
Context {B : Board}.

(** X1: [percent_occupation] raises [ZeroDivisionError] exactly on a board
    without cells; on a board with cells it returns the number of blank
    cells over the number of cells, a fraction between 0 and 1 when the
    blank cells are not more than the cells. *)
Theorem percent_occupation_is_a_fraction (game : Game) :
  ((width game * height game)%Z = 0%Z <->
   percent_occupation game = Raise ZeroDivisionError) /\
  (forall e, percent_occupation game = Raise e -> e = ZeroDivisionError) /\
  ((0 < width game * height game)%Z ->
   (len (get_blank_spaces game) <= width game * height game)%Z ->
   exists q, percent_occupation game = Return q /\
             (q * of_int (width game * height game))%Qc
             = of_int (len (get_blank_spaces game)) /\
             (of_int 0 <= q)%Qc /\ (q <= of_int 1)%Qc).
Proof.
  unfold percent_occupation, fdiv.
  destruct (Qc_eq_dec (of_int (width game * height game)) (of_int 0)) as [E|E].
  - apply of_int_inj in E. split; [|split].
    + tauto.
    + intros e H. now inversion H.
    + lia.
  - split; [|split].
    + split; [|discriminate]. intros H. rewrite H in E. now elim E.
    + discriminate.
    + intros Hpos Hle. eexists. split; [reflexivity|].
      set (t := of_int (width game * height game)) in *.
      set (b := of_int (len (get_blank_spaces game))).
      assert (Ht : (of_int 0 < t)%Qc) by now apply of_int_lt.
      assert (Hm : ((b / t) * t)%Qc = b).
      { change (of_int 0) with (Q2Qc 0) in E. field. exact E. }
      split; [exact Hm|]. split.
      * apply Qcmult_lt_0_le_reg_r with (z := t); [exact Ht|].
        rewrite Hm. change (of_int 0) with (Q2Qc 0).
        replace (Q2Qc 0 * t)%Qc with (Q2Qc 0) by ring.
        apply (@of_int_le 0). unfold len. lia.
      * apply Qcmult_lt_0_le_reg_r with (z := t); [exact Ht|].
        rewrite Hm. change (of_int 1) with (Q2Qc 1).
        replace (Q2Qc 1 * t)%Qc with t by ring.
        now apply of_int_le.
Qed.

End HeuristicEdges.

Lemma percent_occupation_witness :
  percent_occupation void = Raise ZeroDivisionError /\
  exists q, percent_occupation middle7 = Return q /\
            (q * of_int 49)%Qc = of_int 47 /\
            (of_int 0 <= q)%Qc /\ (q <= of_int 1)%Qc.
Proof.
  split.
  - apply (proj1 (proj1 (@percent_occupation_is_a_fraction board void))).
    reflexivity.
  - apply (proj2 (proj2 (@percent_occupation_is_a_fraction board middle7)));
      vm_compute; congruence.
Defined.

Lemma blank_fraction_positive (b t : Z) :
  (0 < b)%Z -> (0 < t)%Z -> (of_int 0 < of_int b / of_int t)%Qc.
Proof.
  intros Hb Ht.
  assert (Et : of_int t <> of_int 0)
    by (intros H; apply of_int_inj in H; lia).
  assert (Hm : ((of_int b / of_int t) * of_int t)%Qc = of_int b).
  { change (of_int 0) with (Q2Qc 0) in Et. field. exact Et. }
  destruct (Qclt_le_dec (of_int 0) (of_int b / of_int t)) as [L|L]; trivial.
  exfalso.
  assert (H : ((of_int b / of_int t) * of_int t <= of_int 0 * of_int t)%Qc).
  { apply Qcmult_le_compat_r; [exact L|]. apply (@of_int_le 0). lia. }
  rewrite Hm in H. change (of_int 0) with (Q2Qc 0) in H.
  replace (Q2Qc 0 * of_int t)%Qc with (Q2Qc 0) in H by ring.
  apply (Qclt_not_le _ _ (@of_int_lt 0 b Hb)). exact H.
Qed.

Lemma blank_fraction_bounds {B : Board} (game : Game) :
  (0 < width game * height game)%Z ->
  (len (get_blank_spaces game) <= width game * height game)%Z ->
  exists o, percent_occupation game = Return o /\
            (of_int 0 <= o)%Qc /\ (o <= of_int 1)%Qc.
Proof.
  intros Hpos Hle.
  rewrite percent_occupation_counts_blank_cells by lia.
  eexists. split; [reflexivity|].
  set (t := of_int (width game * height game)).
  set (b := of_int (len (get_blank_spaces game))).
  assert (Ht : (of_int 0 < t)%Qc) by now apply of_int_lt.
  assert (E : t <> Q2Qc 0).
  { intros H. apply (Qclt_not_eq _ _ Ht). now rewrite H. }
  assert (Hm : ((b / t) * t)%Qc = b) by (field; exact E).
  split.
  - apply Qcmult_lt_0_le_reg_r with (z := t); [exact Ht|].
    rewrite Hm. change (of_int 0) with (Q2Qc 0).
    replace (Q2Qc 0 * t)%Qc with (Q2Qc 0) by ring.
    apply (@of_int_le 0). unfold len. lia.
  - apply Qcmult_lt_0_le_reg_r with (z := t); [exact Ht|].
    rewrite Hm. change (of_int 1) with (Q2Qc 1).
    replace (Q2Qc 1 * t)%Qc with t by ring.
    now apply of_int_le.
Qed.

Section HeuristicValues.
Context {B : Board}.

(** X2: [second_heuristic] raises [ZeroDivisionError] exactly on a board
    without cells and on a board without blank cells, where
    [percent_occupation] is zero, and raises nothing else; on a board with
    cells of which some are blank it returns a finite score that is not
    negative and is zero only when the player has no legal moves. *)
Theorem second_heuristic_division (game : Game) (player : Player) :
  let total := (width game * height game)%Z in
  let blank := len (get_blank_spaces game) in
  let own := len (get_legal_moves game (Some player)) in
  (total = 0%Z \/ blank = 0%Z <->
   second_heuristic game player = Raise ZeroDivisionError) /\
  (forall e, second_heuristic game player = Raise e -> e = ZeroDivisionError) /\
  ((0 < total)%Z -> (0 < blank)%Z ->
   exists q, second_heuristic game player = Return (Fin q) /\
             (of_int 0 <= q)%Qc /\ (q = of_int 0 <-> own = 0%Z)).
Proof.
  intros total blank own. unfold second_heuristic, percent_occupation.
  fold total blank own. unfold fdiv.
  destruct (Qc_eq_dec (of_int total) (of_int 0)) as [E|E]; simpl.
  - apply of_int_inj in E. split; [tauto|]. split.
    + intros e H. now inversion H.
    + lia.
  - assert (Ht : total <> 0%Z) by (intros H; apply E; now rewrite H).
    destruct (Qc_eq_dec (of_int blank / of_int total) (of_int 0)) as [Z|Z]; simpl.
    + apply Qcdiv_zero in Z; [|exact E]. apply of_int_inj in Z.
      split; [tauto|]. split.
      * intros e H. now inversion H.
      * lia.
    + assert (Hb : blank <> 0%Z).
      { intros H. apply Z. rewrite H. change (of_int 0) with (Q2Qc 0) in *.
        field. exact E. }
      split; [|split].
      * split; [intros [H|H]; contradiction|discriminate].
      * discriminate.
      * intros Htot Hbl. eexists. split; [reflexivity|].
        set (z := (of_int blank / of_int total)%Qc) in *.
        assert (Hz : (of_int 0 < z)%Qc) by now apply blank_fraction_positive.
        assert (Hm : ((of_int own / z) * z)%Qc = of_int own).
        { change (of_int 0) with (Q2Qc 0) in Z. field. exact Z. }
        split.
        -- apply Qcmult_lt_0_le_reg_r with (z := z); [exact Hz|].
           rewrite Hm. change (of_int 0) with (Q2Qc 0).
           replace (Q2Qc 0 * z)%Qc with (Q2Qc 0) by ring.
           apply (@of_int_le 0). unfold own, len. lia.
        -- split.
           ++ intros H. rewrite H in Hm. apply of_int_inj.
              rewrite <- Hm. change (of_int 0) with (Q2Qc 0). ring.
           ++ intros H. rewrite H in Hm.
              apply Qcmult_integral in Hm. destruct Hm as [Hq|Hq]; [|contradiction].
              rewrite H. exact Hq.
Qed.

(** X3: [distance_to_opponent] raises [TypeError] when one of the two
    players is not on the board; otherwise it returns the taxicab distance
    of their cells, which is not negative and is zero only when both stand
    on the same cell.  Where the opponent's opponent is the player, the
    distance is the same from either side. *)
Theorem distance_to_opponent_taxicab (game : Game) (player : Player) :
  let here := get_player_location game player in
  let there := get_player_location game (get_opponent game player) in
  (here = None \/ there = None ->
   distance_to_opponent game player = Raise TypeError) /\
  (forall p q, here = Some p -> there = Some q ->
     exists d, distance_to_opponent game player = Return d /\
               d = (Z.abs (fst p - fst q) + Z.abs (snd p - snd q))%Z /\
               (0 <= d)%Z /\ (d = 0%Z <-> p = q)) /\
  (get_opponent game (get_opponent game player) = player ->
   distance_to_opponent game (get_opponent game player)
   = distance_to_opponent game player).
Proof.
  intros here there. unfold distance_to_opponent. fold here there.
  split; [|split].
  - intros [H|H]; rewrite H.
    + reflexivity.
    + destruct here as [[x0 x1]|]; reflexivity.
  - intros [x0 x1] [y0 y1] -> ->. simpl. eexists. split; [reflexivity|].
    split; [reflexivity|]. split; [lia|]. split.
    + intros H. f_equal; lia.
    + intros H. inversion H. lia.
  - intros Hinv. rewrite Hinv. fold here.
    destruct here as [[x0 x1]|], there as [[y0 y1]|]; simpl; trivial.
    f_equal. lia.
Qed.

(** X4: on a state that the board reports as neither lost nor won for the
    designated player, with both players on a board whose blank cells are
    not more than its cells, [custom_score] returns a finite score that
    differs from own moves + distance - opponent moves by the occupation
    term only: it lies between that number minus one and that number. *)
Theorem custom_score_open_state (game : Game) (player : Player) (p q : Move) :
  let own := len (get_legal_moves game (Some player)) in
  let opp := len (get_legal_moves game (Some (get_opponent game player))) in
  let distance := (Z.abs (fst p - fst q) + Z.abs (snd p - snd q))%Z in
  is_loser game player = false ->
  is_winner game player = false ->
  get_player_location game player = Some p ->
  get_player_location game (get_opponent game player) = Some q ->
  (0 < width game * height game)%Z ->
  (len (get_blank_spaces game) <= width game * height game)%Z ->
  exists s, custom_score game player = Return (Fin s) /\
            (of_int (own + distance) - of_int opp - of_int 1 <= s)%Qc /\
            (s <= of_int (own + distance) - of_int opp)%Qc.
Proof.
  intros own opp distance Hl Hw Hp Hq Ht Hb.
  destruct (blank_fraction_bounds game Ht Hb) as (o & Ho & Ho0 & Ho1).
  unfold custom_score. rewrite Hl, Hw.
  unfold third_heuristic, distance_to_opponent. rewrite Hp, Hq.
  destruct p as [x0 x1], q as [y0 y1]. simpl. rewrite Ho. simpl.
  eexists. split; [reflexivity|].
  fold own opp. simpl in distance. fold distance.
  change (of_int 0) with (Q2Qc 0) in Ho0. change (of_int 1) with (Q2Qc 1) in *.
  split; apply Qcle_minus_iff.
  - apply Qcle_minus_iff in Ho1.
    replace (of_int (own + distance) - o - of_int opp
             + - (of_int (own + distance) - of_int opp - Q2Qc 1))%Qc
      with (Q2Qc 1 + - o)%Qc by ring.
    exact Ho1.
  - replace (of_int (own + distance) - of_int opp
             + - (of_int (own + distance) - o - of_int opp))%Qc
      with o by ring.
    exact Ho0.
Qed.

End HeuristicValues.

Lemma second_heuristic_division_witness :
  second_heuristic void true = Raise ZeroDivisionError /\
  second_heuristic full2 true = Raise ZeroDivisionError /\
  (exists q, second_heuristic middle7 true = Return (Fin q) /\
             (of_int 0 <= q)%Qc /\ (q = of_int 0 <-> 8%Z = 0%Z)).
Proof.
  split; [|split].
  - apply (proj1 (proj1 (@second_heuristic_division board void true))).
    left; reflexivity.
  - apply (proj1 (proj1 (@second_heuristic_division board full2 true))).
    right; reflexivity.
  - apply (proj2 (proj2 (@second_heuristic_division board middle7 true)));
      reflexivity.
Defined.

Lemma distance_to_opponent_taxicab_witness :
  distance_to_opponent fresh7 true = Raise TypeError /\
  (exists d, distance_to_opponent middle7 true = Return d /\
             d = 6%Z /\ (0 <= d)%Z /\ (d = 0%Z <-> (3, 3)%Z = (0, 0)%Z)) /\
  distance_to_opponent middle7 false = distance_to_opponent middle7 true.
Proof.
  destruct (@distance_to_opponent_taxicab board fresh7 true) as (H1 & _).
  destruct (@distance_to_opponent_taxicab board middle7 true) as (_ & H2 & H3).
  split; [apply H1; left; reflexivity|].
  split; [exact (H2 (3, 3)%Z (0, 0)%Z eq_refl eq_refl)|].
  apply H3. reflexivity.
Defined.

Lemma custom_score_open_state_witness :
  exists s, custom_score middle7 true = Return (Fin s) /\
            (of_int (8 + 6) - of_int 2 - of_int 1 <= s)%Qc /\
            (s <= of_int (8 + 6) - of_int 2)%Qc.
Proof.
  apply (@custom_score_open_state board middle7 true (3, 3)%Z (0, 0)%Z);
    try reflexivity.
  vm_compute. discriminate.
Defined.

(** ** What plain minimax returns *)

Lemma fold_keep_max_upper (h : Move -> Score) (children : list Move) :
  forall x c, In c children ->
    score_le (h c) (fold_left (fun b c => keep_max b (h c)) children x).
Proof.
  induction children as [|a cs IH]; simpl; intros x c Hin; [contradiction|].
  destruct Hin as [H|H].
  - subst a.
    pose proof (fold_keep_max_ge h cs (keep_max x (h c))) as G.
    unfold keep_max in *. split_comparisons; score_order.
  - now apply IH.
Qed.

Lemma fold_keep_min_lower (h : Move -> Score) (children : list Move) :
  forall x c, In c children ->
    score_le (fold_left (fun b c => keep_min b (h c)) children x) (h c).
Proof.
  induction children as [|a cs IH]; simpl; intros x c Hin; [contradiction|].
  destruct Hin as [H|H].
  - subst a.
    pose proof (fold_keep_min_le h cs (keep_min x (h c))) as G.
    unfold keep_min in *. split_comparisons; score_order.
  - now apply IH.
Qed.

Section PlainMinimax.
Context {B : Board}.
Variable self : CustomPlayer.

Lemma dls_max_loop_children_return (rec : Game -> M (Score * Move)) (game : Game)
    (children : list Move) :
  (forall g k r k', rec g k = (r, k') -> k' = k) ->
  forall best bm k r k',
    dls_max_loop rec game children best bm k = (Return r, k') ->
    forall c, In c children -> exists rc, rec (forecast_move game c) k = (Return rc, k).
Proof.
  intros Hclock. induction children as [|a cs IH]; simpl;
    intros best bm k r k' H c Hin; [contradiction|].
  apply bind_Return_inv in H. destruct H as ([v mv] & k1 & Hc & H).
  pose proof (Hclock _ _ _ _ Hc). subst k1.
  destruct Hin as [->|Hin]; [eauto|].
  destruct (score_ltb best v); eapply IH; eauto.
Qed.

Lemma dls_min_loop_children_return (rec : Game -> M (Score * Move)) (game : Game)
    (children : list Move) :
  (forall g k r k', rec g k = (r, k') -> k' = k) ->
  forall best bm k r k',
    dls_min_loop rec game children best bm k = (Return r, k') ->
    forall c, In c children -> exists rc, rec (forecast_move game c) k = (Return rc, k).
Proof.
  intros Hclock. induction children as [|a cs IH]; simpl;
    intros best bm k r k' H c Hin; [contradiction|].
  apply bind_Return_inv in H. destruct H as ([v mv] & k1 & Hc & H).
  pose proof (Hclock _ _ _ _ Hc). subst k1.
  destruct Hin as [->|Hin]; [eauto|].
  destruct (score_ltb v best); eapply IH; eauto.
Qed.

Lemma dls_max_loop_move (rec : Game -> M (Score * Move)) (f : Game -> Score)
    (game : Game) (all children : list Move) :
  (forall g k v m k', rec g k = (Return (v, m), k') -> v = f g) ->
  incl children all ->
  forall best bm k v m k',
    (bm = no_move /\ best = NegInf) \/
    (In bm all /\ f (forecast_move game bm) = best) ->
    dls_max_loop rec game children best bm k = (Return (v, m), k') ->
    (m = no_move /\ v = NegInf) \/ (In m all /\ f (forecast_move game m) = v).
Proof.
  intros Hrec. induction children as [|a cs IH]; simpl;
    intros Hincl best bm k v m k' Hinv H.
  - inversion H; subst. exact Hinv.
  - apply bind_Return_inv in H. destruct H as ([v1 m1] & k1 & Hc & H).
    apply Hrec in Hc. subst v1.
    assert (Hcs : incl cs all) by (intros x Hx; apply Hincl; now right).
    destruct (score_ltb best (f (forecast_move game a))).
    + eapply IH; [exact Hcs| |exact H]. right. split; trivial.
      apply Hincl. now left.
    + eapply IH; [exact Hcs|exact Hinv|exact H].
Qed.

Lemma dls_min_loop_move (rec : Game -> M (Score * Move)) (f : Game -> Score)
    (game : Game) (all children : list Move) :
  (forall g k v m k', rec g k = (Return (v, m), k') -> v = f g) ->
  incl children all ->
  forall best bm k v m k',
    (bm = no_move /\ best = PosInf) \/
    (In bm all /\ f (forecast_move game bm) = best) ->
    dls_min_loop rec game children best bm k = (Return (v, m), k') ->
    (m = no_move /\ v = PosInf) \/ (In m all /\ f (forecast_move game m) = v).
Proof.
  intros Hrec. induction children as [|a cs IH]; simpl;
    intros Hincl best bm k v m k' Hinv H.
  - inversion H; subst. exact Hinv.
  - apply bind_Return_inv in H. destruct H as ([v1 m1] & k1 & Hc & H).
    apply Hrec in Hc. subst v1.
    assert (Hcs : incl cs all) by (intros x Hx; apply Hincl; now right).
    destruct (score_ltb (f (forecast_move game a)) best).
    + eapply IH; [exact Hcs| |exact H]. right. split; trivial.
      apply Hincl. now left.
    + eapply IH; [exact Hcs|exact Hinv|exact H].
Qed.

(** The move of [dls] is the sentinel or a legal move of the state. *)
Lemma dls_move_legal_or_sentinel (game : Game) (depth : nat) (mx : bool)
    (k k' : nat) (v : Score) (m : Move) :
  dls self game depth mx k = (Return (v, m), k') ->
  m = no_move \/ In m (get_legal_moves game None).
Proof.
  destruct depth as [|d]; simpl; intros H.
  - unfold leaf, bind, lift, ret in H.
    destruct (score self game (ident self)); inversion H; auto.
  - destruct mx.
    + eapply dls_max_loop_move
        with (f := minimax_value self d false) (all := get_legal_moves game None)
        in H; [tauto| |apply incl_refl|auto].
      intros g k0 v0 m0 k0' H0. eapply dls_value; exact H0.
    + eapply dls_min_loop_move
        with (f := minimax_value self d true) (all := get_legal_moves game None)
        in H; [tauto| |apply incl_refl|auto].
      intros g k0 v0 m0 k0' H0. eapply dls_value; exact H0.
Qed.

End PlainMinimax.

(** X5: above the depth limit [dls] visits every legal move, and what it
    returns is the optimum of what it got back: on a maximizing layer no
    child scored more than the returned score, on a minimizing layer none
    scored less.  The returned move is a legal move whose child scored
    exactly the returned score, or it is the sentinel and the score is the
    initial -inf (maximizing) or +inf (minimizing). *)
Theorem dls_returns_the_optimum {B : Board} (self : CustomPlayer) (game : Game)
    (depth : nat) (mx : bool) (k k' : nat) (v : Score) (m : Move) :
  dls self game (S depth) mx k = (Return (v, m), k') ->
  (forall c, In c (get_legal_moves game None) ->
     exists vc mc,
       dls self (forecast_move game c) depth (negb mx) k = (Return (vc, mc), k) /\
       if mx then score_le vc v else score_le v vc) /\
  ((m = no_move /\ v = if mx then NegInf else PosInf) \/
   (In m (get_legal_moves game None) /\
    exists mc,
      dls self (forecast_move game m) depth (negb mx) k = (Return (v, mc), k))).
Proof.
  intros H.
  assert (Hv : v = minimax_value self (S depth) mx game)
    by (eapply dls_value; exact H).
  assert (Hchild : forall c, In c (get_legal_moves game None) ->
            exists vc mc,
              dls self (forecast_move game c) depth (negb mx) k
              = (Return (vc, mc), k) /\
              vc = minimax_value self depth (negb mx) (forecast_move game c)).
  { intros c Hin. simpl in H. destruct mx.
    - eapply dls_max_loop_children_return in H;
        [|intros g k0 r0 k0' H0; eapply dls_never_polls; exact H0|exact Hin].
      destruct H as ([vc mc] & Hc). exists vc, mc. split; [exact Hc|].
      eapply dls_value; exact Hc.
    - eapply dls_min_loop_children_return in H;
        [|intros g k0 r0 k0' H0; eapply dls_never_polls; exact H0|exact Hin].
      destruct H as ([vc mc] & Hc). exists vc, mc. split; [exact Hc|].
      eapply dls_value; exact Hc. }
  split.
  - intros c Hin. destruct (Hchild c Hin) as (vc & mc & Hc & Hvc).
    exists vc, mc. split; [exact Hc|]. subst v vc. simpl. destruct mx; simpl.
    + apply (fold_keep_max_upper
               (fun c => minimax_value self depth false (forecast_move game c))).
      exact Hin.
    + apply (fold_keep_min_lower
               (fun c => minimax_value self depth true (forecast_move game c))).
      exact Hin.
  - clear Hv. simpl in H. destruct mx.
    + eapply dls_max_loop_move
        with (f := minimax_value self depth false)
             (all := get_legal_moves game None)
        in H; [| |apply incl_refl|auto].
      * destruct H as [H|[Hin Hm]]; [now left|right]. split; [exact Hin|].
        destruct (Hchild m Hin) as (vc & mc & Hc & Hvc).
        exists mc. simpl in *. congruence.
      * intros g k0 v0 m0 k0' H0. eapply dls_value; exact H0.
    + eapply dls_min_loop_move
        with (f := minimax_value self depth true)
             (all := get_legal_moves game None)
        in H; [| |apply incl_refl|auto].
      * destruct H as [H|[Hin Hm]]; [now left|right]. split; [exact Hin|].
        destruct (Hchild m Hin) as (vc & mc & Hc & Hvc).
        exists mc. simpl in *. congruence.
      * intros g k0 v0 m0 k0' H0. eapply dls_value; exact H0.
Qed.

Lemma dls_returns_the_optimum_witness :
  let self := set_time_left (agent (@custom_score board) "minimax" true 3 10%Q)
                (steady 100%Q) in
  (forall c, In c (legal_moves centre5 None) ->
     exists vc mc,
       dls self (apply_move centre5 c) 0 false 0%nat = (Return (vc, mc), 0%nat) /\
       score_le vc (Fin (Q2Qc (128 # 25)))) /\
  ((3, 4)%Z = no_move /\ Fin (Q2Qc (128 # 25)) = NegInf \/
   In (3, 4)%Z (legal_moves centre5 None) /\
   exists mc,
     dls self (apply_move centre5 (3, 4)%Z) 0 false 0%nat
     = (Return (Fin (Q2Qc (128 # 25)), mc), 0%nat)).
Proof.
  intros self.
  apply (@dls_returns_the_optimum board self centre5 0 true 0 0
           (Fin (Q2Qc (128 # 25))) (3, 4)%Z).
  same_run.
Defined.

(** ** Where exceptions come from *)

Lemma raise_source_ret {B : Board} {A} (self : CustomPlayer) (tl : nat -> Q)
    (k : nat) (a : A) : raise_source self tl k (Return a) k.
Proof. split; [lia|discriminate]. Qed.

Lemma raise_source_bind {B : Board} {A C} (self : CustomPlayer) (tl : nat -> Q)
    (m : M A) (f : A -> M C) :
  (forall k r k', m k = (r, k') -> raise_source self tl k r k') ->
  (forall a k r k', f a k = (r, k') -> raise_source self tl k r k') ->
  forall k r k', bind m f k = (r, k') -> raise_source self tl k r k'.
Proof.
  intros Hm Hf k r k'. unfold bind.
  destruct (m k) as [[a|e0] k1] eqn:E; intros H.
  - apply Hm in E. apply Hf in H. destruct E as (L1 & _), H as (L2 & P2).
    split; [lia|]. intros e He. destruct (P2 e He) as [(-> & j & Hj & Hlow)|Hs].
    + left. split; trivial. exists j. split; [lia|exact Hlow].
    + now right.
  - inversion H; subst. apply Hm in E. destruct E as (L1 & P1).
    split; [lia|]. intros e He. inversion He; subst. now apply P1.
Qed.

Section RaiseSource.
Context {B : Board}.
Variable self : CustomPlayer.
Variable tl : nat -> Q.
Hypothesis clock : time_left self = Some tl.

Lemma check_time_raise_source (k : nat) (r : outcome unit) (k' : nat) :
  check_time self k = (r, k') -> raise_source self tl k r k'.
Proof.
  rewrite (check_time_run _ clock).
  destruct (Qlt_le_dec (tl k) (TIMER_THRESHOLD self)) as [L|L];
    intros H; inversion H; subst; split; try lia; try discriminate.
  intros e He. inversion He; subst. left. split; trivial.
  exists k. split; [lia|exact L].
Qed.

Lemma leaf_raise_source (game : Game) (k : nat) (r : outcome (Score * Move))
    (k' : nat) :
  leaf self game k = (r, k') -> raise_source self tl k r k'.
Proof.
  unfold leaf, bind, lift, ret.
  destruct (score self game (ident self)) as [v|e0] eqn:E;
    intros H; inversion H; subst; split; try lia; try discriminate.
  intros e He. inversion He; subst. right. now exists game.
Qed.

Lemma dls_max_loop_raise_source (rec : Game -> M (Score * Move)) (game : Game)
    (children : list Move) :
  (forall g k r k', rec g k = (r, k') -> raise_source self tl k r k') ->
  forall best bm k r k',
    dls_max_loop rec game children best bm k = (r, k') ->
    raise_source self tl k r k'.
Proof.
  intros Hrec. induction children as [|c cs IH]; simpl; intros best bm k r k' H.
  - inversion H; subst. apply raise_source_ret.
  - revert H. apply raise_source_bind.
    + intros k0 r0 k0'. apply Hrec.
    + intros [v mv] k0 r0 k0'. destruct (score_ltb best v); apply IH.
Qed.

Lemma dls_min_loop_raise_source (rec : Game -> M (Score * Move)) (game : Game)
    (children : list Move) :
  (forall g k r k', rec g k = (r, k') -> raise_source self tl k r k') ->
  forall best bm k r k',
    dls_min_loop rec game children best bm k = (r, k') ->
    raise_source self tl k r k'.
Proof.
  intros Hrec. induction children as [|c cs IH]; simpl; intros best bm k r k' H.
  - inversion H; subst. apply raise_source_ret.
  - revert H. apply raise_source_bind.
    + intros k0 r0 k0'. apply Hrec.
    + intros [v mv] k0 r0 k0'. destruct (score_ltb v best); apply IH.
Qed.

Lemma dls_raise_source (depth : nat) :
  forall game mx k r k',
    dls self game depth mx k = (r, k') -> raise_source self tl k r k'.
Proof.
  induction depth as [|d IH]; intros game mx k r k'; simpl.
  - apply leaf_raise_source.
  - destruct mx.
    + apply dls_max_loop_raise_source. intros g k0 r0 k0'. apply IH.
    + apply dls_min_loop_raise_source. intros g k0 r0 k0'. apply IH.
Qed.

Lemma ab_max_loop_raise_source
    (rec : Game -> Score -> Score -> M (Score * Move)) (game : Game)
    (children : list Move) :
  (forall g a b k r k', rec g a b k = (r, k') -> raise_source self tl k r k') ->
  forall alpha beta best bm k r k',
    ab_max_loop rec game children alpha beta best bm k = (r, k') ->
    raise_source self tl k r k'.
Proof.
  intros Hrec. induction children as [|c cs IH]; simpl;
    intros alpha beta best bm k r k' H.
  - inversion H; subst. apply raise_source_ret.
  - revert H. apply raise_source_bind.
    + intros k0 r0 k0'. apply Hrec.
    + intros [v mv] k0 r0 k0'.
      destruct (score_ltb best v);
        match goal with
        | |- context [if ?c then _ else _] => destruct c
        end; intros H;
        try (inversion H; subst; apply raise_source_ret);
        eapply IH; exact H.
Qed.

Lemma ab_min_loop_raise_source
    (rec : Game -> Score -> Score -> M (Score * Move)) (game : Game)
    (children : list Move) :
  (forall g a b k r k', rec g a b k = (r, k') -> raise_source self tl k r k') ->
  forall alpha beta best bm k r k',
    ab_min_loop rec game children alpha beta best bm k = (r, k') ->
    raise_source self tl k r k'.
Proof.
  intros Hrec. induction children as [|c cs IH]; simpl;
    intros alpha beta best bm k r k' H.
  - inversion H; subst. apply raise_source_ret.
  - revert H. apply raise_source_bind.
    + intros k0 r0 k0'. apply Hrec.
    + intros [v mv] k0 r0 k0'.
      destruct (score_ltb v best);
        match goal with
        | |- context [if ?c then _ else _] => destruct c
        end; intros H;
        try (inversion H; subst; apply raise_source_ret);
        eapply IH; exact H.
Qed.

Lemma alphabeta_raise_source (depth : nat) :
  forall game alpha beta mx k r k',
    alphabeta self game depth alpha beta mx k = (r, k') ->
    raise_source self tl k r k'.
Proof.
  induction depth as [|d IH]; intros game alpha beta mx k r k'; simpl.
  - apply raise_source_bind.
    + apply check_time_raise_source.
    + intros _ k0 r0 k0'. apply leaf_raise_source.
  - apply raise_source_bind.
    + apply check_time_raise_source.
    + intros _ k0 r0 k0'. destruct (get_legal_moves game None) as [|c cs].
      * apply leaf_raise_source.
      * destruct mx.
        -- apply ab_max_loop_raise_source. intros g a b k1 r1 k1'. apply IH.
        -- apply ab_min_loop_raise_source. intros g a b k1 r1 k1'. apply IH.
Qed.

Lemma call_search_raise_source (game : Game) (depth : nat) (arg : bool)
    (f : Game -> nat -> bool -> M (Score * Move)) (k : nat)
    (r : outcome (Score * Move)) (k' : nat) :
  select_search self = Some f ->
  f game depth arg k = (r, k') -> raise_source self tl k r k'.
Proof.
  unfold select_search. destruct (String.eqb (method self) "minimax").
  - intros Hf. inversion Hf; subst. unfold minimax. apply raise_source_bind.
    + apply check_time_raise_source.
    + intros _ k0 r0 k0'. apply dls_raise_source.
  - destruct (String.eqb (method self) "alphabeta"); [|discriminate].
    intros Hf. inversion Hf; subst. apply alphabeta_raise_source.
Qed.

End RaiseSource.

(** X6: [minimax] reads the clock exactly once, however deep the search:
    it raises [Timeout] at once when that reading is strictly below the
    threshold; after it nothing times out any more, and an exception that
    leaves [minimax] was raised by the evaluation function on some state. *)
Theorem minimax_reads_clock_once {B : Board} (self : CustomPlayer)
    (tl : nat -> Q) (game : Game) (depth : nat) (mx : bool) (k k' : nat)
    (r : outcome (Score * Move)) :
  time_left self = Some tl ->
  minimax self game depth mx k = (r, k') ->
  k' = S k /\
  ((tl k < TIMER_THRESHOLD self)%Q -> r = Raise Timeout) /\
  (~ (tl k < TIMER_THRESHOLD self)%Q ->
   forall e, r = Raise e -> exists g, score self g (ident self) = Raise e).
Proof.
  intros Hc H. split; [eapply minimax_polls_once; eauto|].
  unfold minimax, bind in H. rewrite (check_time_run _ Hc) in H.
  destruct (Qlt_le_dec (tl k) (TIMER_THRESHOLD self)) as [L|L].
  - inversion H; subst. split; trivial. intros N. contradiction.
  - split.
    + intros Hlow. exfalso. exact (Qle_not_lt _ _ L Hlow).
    + intros _ e He. pose proof (dls_never_polls _ _ _ _ _ H) as Hk.
      apply (@dls_raise_source _ self tl) in H. destruct H as (_ & P).
      destruct (P e He) as [(_ & j & Hj & _)|Hs]; [lia|exact Hs].
Qed.

(** X7: an exception that leaves [alphabeta] is a [TypeError] raised before
    anything else when the player has no clock yet ([time_left] is still
    [None], as [__init__] leaves it), a [Timeout] after a reading of the
    clock strictly below the threshold, or an exception raised by the
    evaluation function on some state. *)
Theorem alphabeta_exceptions {B : Board} (self : CustomPlayer) (game : Game)
    (depth : nat) (alpha beta : Score) (mx : bool) (k k' : nat)
    (r : outcome (Score * Move)) :
  alphabeta self game depth alpha beta mx k = (r, k') ->
  (time_left self = None -> r = Raise TypeError /\ k' = k) /\
  (forall tl e, time_left self = Some tl -> r = Raise e ->
     (e = Timeout /\
      exists j, (k <= j < k')%nat /\ (tl j < TIMER_THRESHOLD self)%Q) \/
     (exists g, score self g (ident self) = Raise e)).
Proof.
  intros H. split.
  - intros Hn. destruct depth; simpl in H;
      unfold bind, check_time, call_time_left in H; rewrite Hn in H;
      now inversion H.
  - intros tl e Hc He. apply (alphabeta_raise_source _ Hc) in H.
    destruct H as (_ & P). now apply P.
Qed.

Lemma minimax_reads_clock_once_witness :
  let self := set_time_left (agent (@custom_score board) "minimax" true 3 10%Q)
                (expiring 1 100%Q) in
  snd (minimax self centre5 3 true 0%nat) = 1%nat /\
  (forall e, fst (minimax self fresh7 3 true 0%nat) = Raise e ->
             exists g, custom_score g true = Raise e) /\
  minimax self centre5 3 true 1%nat = (Raise Timeout, 2%nat).
Proof.
  intros self. split; [|split].
  - destruct (minimax self centre5 3 true 0%nat) as [r k'] eqn:E.
    exact (proj1 (@minimax_reads_clock_once board self (expiring 1 100%Q)
                    centre5 3 true 0 k' r eq_refl E)).
  - destruct (minimax self fresh7 3 true 0%nat) as [r k'] eqn:E.
    destruct (@minimax_reads_clock_once board self (expiring 1 100%Q)
                fresh7 3 true 0 k' r eq_refl E) as (_ & _ & H).
    apply H. intros L. vm_compute in L. discriminate.
  - destruct (minimax self centre5 3 true 1%nat) as [r k'] eqn:E.
    destruct (@minimax_reads_clock_once board self (expiring 1 100%Q)
                centre5 3 true 1 k' r eq_refl E) as (-> & H & _).
    rewrite H; reflexivity.
Defined.

Lemma alphabeta_exceptions_witness :
  let fresh := agent (@custom_score board) "alphabeta" true 3 10%Q in
  alphabeta fresh corners4 2 NegInf PosInf true 0%nat = (Raise TypeError, 0%nat) /\
  alphabeta (set_time_left fresh (steady 100%Q)) fresh7 0 NegInf PosInf true 0%nat
  = (Raise TypeError, 1%nat) /\
  (exists g, custom_score g true = Raise TypeError).
Proof.
  intros fresh.
  assert (E2 : alphabeta (set_time_left fresh (steady 100%Q)) fresh7 0
                 NegInf PosInf true 0%nat = (Raise TypeError, 1%nat))
    by reflexivity.
  split; [|split; [exact E2|]].
  - destruct (alphabeta fresh corners4 2 NegInf PosInf true 0%nat)
      as [r k'] eqn:E.
    destruct (@alphabeta_exceptions board fresh corners4 2 NegInf PosInf true
                0 k' r E) as (H & _).
    destruct (H eq_refl) as [-> ->]. reflexivity.
  - destruct (@alphabeta_exceptions board _ fresh7 0 NegInf PosInf true
                0 1 _ E2) as (_ & H).
    destruct (H (steady 100%Q) TypeError eq_refl eq_refl)
      as [(D & _)|Hs]; [discriminate|exact Hs].
Defined.

(** ** The moves of alpha-beta and the nodes it visits *)

Section AlphaBetaNodes.
Context {B : Board}.
Variable self : CustomPlayer.

Lemma ab_max_loop_move (rec : Game -> Score -> Score -> M (Score * Move))
    (game : Game) (all children : list Move) :
  incl children all ->
  forall alpha beta best bm k v m k',
    bm = no_move \/ In bm all ->
    ab_max_loop rec game children alpha beta best bm k = (Return (v, m), k') ->
    m = no_move \/ In m all.
Proof.
  induction children as [|c cs IH]; simpl;
    intros Hincl alpha beta best bm k v m k' Hbm H.
  - inversion H; subst. exact Hbm.
  - apply bind_Return_inv in H. destruct H as ([v1 m1] & k1 & _ & H).
    assert (Hc : In c all) by (apply Hincl; now left).
    assert (Hcs : incl cs all) by (intros x Hx; apply Hincl; now right).
    destruct (score_ltb best v1);
      match type of H with
      | context [if ?c then _ else _] => destruct c
      end;
      try (inversion H; subst; auto; fail);
      eapply IH; try exact H; auto.
Qed.

Lemma alphabeta_max_move_legal_or_sentinel (game : Game) (depth : nat)
    (alpha beta : Score) (k k' : nat) (v : Score) (m : Move) :
  alphabeta self game depth alpha beta true k = (Return (v, m), k') ->
  m = no_move \/ In m (get_legal_moves game None).
Proof.
  intros H. destruct depth as [|d]; simpl in H;
    apply bind_Return_inv in H; destruct H as (u & k1 & _ & H).
  - unfold leaf, bind, lift, ret in H.
    destruct (score self game (ident self)); inversion H; auto.
  - destruct (get_legal_moves game None) as [|c cs] eqn:E.
    + unfold leaf, bind, lift, ret in H.
      destruct (score self game (ident self)); inversion H; auto.
    + eapply ab_max_loop_move in H; [exact H|apply incl_refl|auto].
Qed.

Lemma check_time_clock (k : nat) (r : outcome unit) (k' : nat) :
  check_time self k = (r, k') -> (k <= k' <= S k)%nat.
Proof.
  unfold check_time, call_time_left, bind, raise, ret.
  destruct (time_left self) as [tl|].
  - destruct (Qlt_le_dec (tl k) (TIMER_THRESHOLD self));
      intros H; inversion H; lia.
  - intros H; inversion H; lia.
Qed.

Lemma ab_max_loop_nodes (rec : Game -> Score -> Score -> M (Score * Move))
    (size : Game -> nat) (game : Game) (children : list Move) :
  (forall g a b k r k', rec g a b k = (r, k') -> (k' <= k + size g)%nat) ->
  forall alpha beta best bm k r k',
    ab_max_loop rec game children alpha beta best bm k = (r, k') ->
    (k' <= k + list_sum (map (fun c => size (forecast_move game c)) children))%nat.
Proof.
  intros Hrec. induction children as [|c cs IH]; simpl;
    intros alpha beta best bm k r k' H.
  - inversion H; lia.
  - unfold bind in H.
    destruct (rec (forecast_move game c) alpha beta k) as [[[v mv]|e] k1] eqn:E;
      apply Hrec in E; [|inversion H; lia].
    destruct (score_ltb best v);
      match type of H with
      | context [if ?c then _ else _] => destruct c
      end;
      try (inversion H; lia);
      apply IH in H; lia.
Qed.

Lemma ab_min_loop_nodes (rec : Game -> Score -> Score -> M (Score * Move))
    (size : Game -> nat) (game : Game) (children : list Move) :
  (forall g a b k r k', rec g a b k = (r, k') -> (k' <= k + size g)%nat) ->
  forall alpha beta best bm k r k',
    ab_min_loop rec game children alpha beta best bm k = (r, k') ->
    (k' <= k + list_sum (map (fun c => size (forecast_move game c)) children))%nat.
Proof.
  intros Hrec. induction children as [|c cs IH]; simpl;
    intros alpha beta best bm k r k' H.
  - inversion H; lia.
  - unfold bind in H.
    destruct (rec (forecast_move game c) alpha beta k) as [[[v mv]|e] k1] eqn:E;
      apply Hrec in E; [|inversion H; lia].
    destruct (score_ltb v best);
      match type of H with
      | context [if ?c then _ else _] => destruct c
      end;
      try (inversion H; lia);
      apply IH in H; lia.
Qed.

Lemma alphabeta_nodes (depth : nat) :
  forall game alpha beta mx k r k',
    alphabeta self game depth alpha beta mx k = (r, k') ->
    (k' <= k + tree_size depth game)%nat.
Proof.
  induction depth as [|d IH]; intros game alpha beta mx k r k' H; simpl in *;
    unfold bind at 1 in H;
    destruct (check_time self k) as [[u|e] k1] eqn:E;
    apply check_time_clock in E;
    try (inversion H; lia).
  - apply leaf_clock in H. lia.
  - destruct (get_legal_moves game None) as [|c cs].
    + apply leaf_clock in H. simpl. lia.
    + destruct mx.
      * apply ab_max_loop_nodes with (size := tree_size d) in H; [lia|].
        intros g a b k0 r0 k0' H0. eapply IH; exact H0.
      * apply ab_min_loop_nodes with (size := tree_size d) in H; [lia|].
        intros g a b k0 r0 k0' H0. eapply IH; exact H0.
Qed.

End AlphaBetaNodes.

Lemma ab_max_loop_move_or_default {B : Board}
    (rec : Game -> Score -> Score -> M (Score * Move))
    (game : Game) (all children : list Move) :
  incl children all ->
  forall alpha beta best bm k v m k',
    (bm = no_move /\ best = NegInf) \/ In bm all ->
    ab_max_loop rec game children alpha beta best bm k = (Return (v, m), k') ->
    (m = no_move /\ v = NegInf) \/ In m all.
Proof.
  induction children as [|c cs IH]; simpl;
    intros Hincl alpha beta best bm k v m k' Hbm H.
  - inversion H; subst. exact Hbm.
  - apply bind_Return_inv in H. destruct H as ([v1 m1] & k1 & _ & H).
    assert (Hc : In c all) by (apply Hincl; now left).
    assert (Hcs : incl cs all) by (intros x Hx; apply Hincl; now right).
    destruct (score_ltb best v1);
      match type of H with
      | context [if ?c then _ else _] => destruct c
      end;
      try (inversion H; subst; auto; fail);
      eapply IH; try exact H; auto.
Qed.

(** X8: the move that a maximizing call of [alphabeta] returns, whatever
    the window, is the sentinel or one of the legal moves of its state; at
    a state with legal moves above the depth limit it is the sentinel only
    when the returned score is -inf, no child having improved on it. *)
Theorem alphabeta_maximizing_move_is_legal {B : Board} (self : CustomPlayer)
    (game : Game) (depth : nat) (alpha beta : Score) (k k' : nat)
    (v : Score) (m : Move) :
  alphabeta self game depth alpha beta true k = (Return (v, m), k') ->
  (m = no_move \/ In m (get_legal_moves game None)) /\
  (depth <> 0%nat -> get_legal_moves game None <> [] ->
   (m = no_move /\ v = NegInf) \/ In m (get_legal_moves game None)).
Proof.
  intros H. split.
  - eapply alphabeta_max_move_legal_or_sentinel; exact H.
  - intros Hd Hmoves. destruct depth as [|d]; [contradiction|].
    simpl in H. apply bind_Return_inv in H. destruct H as (u & k1 & _ & H).
    destruct (get_legal_moves game None) as [|c cs] eqn:E; [contradiction|].
    eapply ab_max_loop_move_or_default in H;
      [exact H|apply incl_refl|left; split; reflexivity].
Qed.

(** X9: a call of [alphabeta] at a depth reads the clock at least once and
    at most as often as the game tree below the state has nodes down to
    that depth. *)
Theorem alphabeta_reads_clock_once_per_node {B : Board} (self : CustomPlayer)
    (tl : nat -> Q) (game : Game) (depth : nat) (alpha beta : Score) (mx : bool)
    (k k' : nat) (r : outcome (Score * Move)) :
  time_left self = Some tl ->
  alphabeta self game depth alpha beta mx k = (r, k') ->
  (k < k')%nat /\ (k' <= k + tree_size depth game)%nat.
Proof.
  intros Hc H. split.
  - eapply alphabeta_reads_clock; eauto.
  - eapply alphabeta_nodes; eauto.
Qed.

Lemma alphabeta_maximizing_move_is_legal_witness :
  let self := set_time_left (agent (@custom_score board) "alphabeta" true 3 10%Q)
                (steady 100%Q) in
  ((3, 4)%Z = no_move \/ In (3, 4)%Z (legal_moves centre5 None)) /\
  (2%nat <> 0%nat -> legal_moves centre5 None <> [] ->
   ((3, 4)%Z = no_move /\ Fin (Q2Qc (29 # 25)) = NegInf) \/
   In (3, 4)%Z (legal_moves centre5 None)).
Proof.
  intros self.
  apply (@alphabeta_maximizing_move_is_legal board self centre5 2
           (of_bool true) PosInf 0 19 (Fin (Q2Qc (29 # 25))) (3, 4)%Z).
  same_run.
Defined.

Lemma alphabeta_reads_clock_once_per_node_witness :
  let self := set_time_left (agent (@custom_score board) "alphabeta" true 3 10%Q)
                (steady 100%Q) in
  alphabeta self corner3 2 NegInf PosInf true 0%nat
  = (Return (PosInf, (1, 2)%Z), 2%nat) /\
  tree_size 2 corner3 = 3%nat /\
  (0 < 2)%nat /\ (2 <= 0 + tree_size 2 corner3)%nat.
Proof.
  intros self.
  assert (E : alphabeta self corner3 2 NegInf PosInf true 0%nat
              = (Return (PosInf, (1, 2)%Z), 2%nat)) by reflexivity.
  split; [exact E|]. split; [reflexivity|].
  exact (@alphabeta_reads_clock_once_per_node board self (steady 100%Q)
           corner3 2 NegInf PosInf true 0 2 _ eq_refl E).
Defined.

(** X10: called with any window alpha < beta, [alphabeta] returns the score
    of [dls] exactly when its score lies strictly inside the window; a score
    at or below alpha is an upper bound on the score of [dls], a score at or
    above beta a lower bound (dead ends being scored as lost for the side to
    move).  [get_move] calls [alphabeta] with alpha = True, that is 1. *)
Theorem alphabeta_window_guarantee {B : Board} (self : CustomPlayer)
    (game : Game) (depth : nat) (mx : bool) (alpha beta : Score)
    (k1 k1' k2 k2' : nat) (v V : Score) (m mV : Move) :
  score_lt alpha beta ->
  dead_ends_scored self depth mx game ->
  alphabeta self game depth alpha beta mx k1 = (Return (v, m), k1') ->
  dls self game depth mx k2 = (Return (V, mV), k2') ->
  (score_lt alpha v -> score_lt v beta -> v = V) /\
  (score_le v alpha -> score_le V v) /\
  (score_le beta v -> score_le v V).
Proof.
  intros Hw Hdead Hab Hdls.
  apply alphabeta_within in Hab; [|exact Hw|exact Hdead].
  apply dls_value in Hdls. subst V.
  destruct Hab as (H1 & H2 & H3). repeat split; assumption.
Qed.

Lemma alphabeta_window_guarantee_witness :
  let self := set_time_left (agent (@custom_score board) "alphabeta" true 3 10%Q)
                (steady 100%Q) in
  alphabeta self centre5 2 (of_bool true) PosInf true 0%nat
  = (Return (Fin (Q2Qc (29 # 25)), (3, 4)%Z), 19%nat) /\
  dls self centre5 2 true 0%nat
  = (Return (Fin (Q2Qc (29 # 25)), (3, 4)%Z), 0%nat) /\
  ((score_lt (of_bool true) (Fin (Q2Qc (29 # 25))) ->
    score_lt (Fin (Q2Qc (29 # 25))) PosInf ->
    Fin (Q2Qc (29 # 25)) = Fin (Q2Qc (29 # 25))) /\
   (score_le (Fin (Q2Qc (29 # 25))) (of_bool true) ->
    score_le (Fin (Q2Qc (29 # 25))) (Fin (Q2Qc (29 # 25)))) /\
   (score_le PosInf (Fin (Q2Qc (29 # 25))) ->
    score_le (Fin (Q2Qc (29 # 25))) (Fin (Q2Qc (29 # 25))))).
Proof.
  intros self.
  assert (E1 : alphabeta self centre5 2 (of_bool true) PosInf true 0%nat
               = (Return (Fin (Q2Qc (29 # 25)), (3, 4)%Z), 19%nat))
    by same_run.
  assert (E2 : dls self centre5 2 true 0%nat
               = (Return (Fin (Q2Qc (29 # 25)), (3, 4)%Z), 0%nat))
    by same_run.
  split; [exact E1|]. split; [exact E2|].
  refine (@alphabeta_window_guarantee board self centre5 2 true
            (of_bool true) PosInf 0 19 0 0 _ _ _ _ _ _ E1 E2).
  - exact I.
  - apply custom_score_scores_dead_ends; reflexivity.
Defined.

(** ** What [get_move] returns *)

Section GetMove.
Context {B : Board}.
Variable self : CustomPlayer.
Variable game : Game.

Lemma call_search_move_legal (depth : nat) (k k' : nat) (v : Score) (m : Move) :
  call_search (select_search self) game depth true k = (Return (v, m), k') ->
  m = no_move \/ In m (get_legal_moves game None).
Proof.
  unfold select_search. destruct (String.eqb (method self) "minimax"); simpl.
  - unfold minimax. intros H. apply bind_Return_inv in H.
    destruct H as (u & k1 & _ & H). eapply dls_move_legal_or_sentinel; exact H.
  - destruct (String.eqb (method self) "alphabeta"); simpl.
    + apply alphabeta_max_move_legal_or_sentinel.
    + discriminate.
Qed.

Lemma deepening_result (fuel : nat) :
  forall i move k mv k',
    (forall m, move = Some m -> m = no_move \/ In m (get_legal_moves game None)) ->
    deepening fuel (select_search self) game i move k = Some (Return mv, k') ->
    (forall m, mv = Some m -> m = no_move \/ In m (get_legal_moves game None)) /\
    (mv = None -> move = None /\
       call_search (select_search self) game (i + 1) true k = (Raise Timeout, k')).
Proof.
  induction fuel as [|fuel IH]; simpl; intros i move k mv k' Hmove H;
    [discriminate|].
  destruct (call_search (select_search self) game (i + 1) true k)
    as [[[v m']|e] k1] eqn:E.
  - apply call_search_move_legal in E.
    apply IH in H.
    + destruct H as (H1 & H2). split; [exact H1|].
      intros Hn. destruct (H2 Hn) as [D _]. discriminate.
    + intros m Hm. inversion Hm; subst. exact E.
  - destruct e; inversion H; subst. split; [exact Hmove|]. auto.
Qed.

Lemma deepening_raises (fuel : nat) :
  forall i move k e k',
    deepening fuel (select_search self) game i move k = Some (Raise e, k') ->
    e <> Timeout /\
    exists d k0, call_search (select_search self) game d true k0 = (Raise e, k').
Proof.
  induction fuel as [|fuel IH]; simpl; intros i move k e k' H; [discriminate|].
  destruct (call_search (select_search self) game (i + 1) true k)
    as [[[v m']|e0] k1] eqn:E.
  - eapply IH; exact H.
  - destruct e0; inversion H; subst; (split; [discriminate|eauto]).
Qed.

Lemma deepening_endless (fuel : nat) :
  (forall d k, exists r k',
      call_search (select_search self) game d true k = (Return r, k')) ->
  forall i move k, deepening fuel (select_search self) game i move k = None.
Proof.
  intros Hret. induction fuel as [|fuel IH]; simpl; intros i move k; trivial.
  destruct (Hret (i + 1)%nat k) as ([v m] & k' & E). rewrite E. apply IH.
Qed.

End GetMove.

(** X11: what [get_move] hands back.  A move is the sentinel, or the pair
    (int(width/2), int(height/2)) of the opening shortcut, handed back when
    the legal moves are as many as the cells and whether or not that pair is
    a cell of the board, or a legal move of the player to move on the
    board; [None] comes back only when the list of legal moves is not empty
    and the first search, of depth 1 with iterative deepening and of
    [search_depth] without, raised [Timeout]. *)
Theorem get_move_result {B : Board} (fuel : nat) (self : CustomPlayer)
    (game : Game) (legal_moves : list Move) (tl : nat -> Q) (k k' : nat)
    (mv : option Move) :
  get_move fuel self game legal_moves tl k = Some (Return mv, k') ->
  (forall m, mv = Some m ->
     m = no_move \/
     (m = (half (width game), half (height game)) /\
      len (get_legal_moves game None) = (width game * height game)%Z) \/
     In m (get_legal_moves game None)) /\
  (mv = None ->
   legal_moves <> [] /\
   call_search (select_search (set_time_left self tl)) game
     (if iterative self then 1 else search_depth self) true k
   = (Raise Timeout, k')).
Proof.
  unfold get_move. destruct legal_moves as [|m0 ms].
  - intros H. inversion H; subst. split; [|discriminate].
    intros m Hm. inversion Hm; auto.
  - destruct (Z.eqb (len (get_legal_moves game None)) (width game * height game))
      eqn:Eopen.
    + apply Z.eqb_eq in Eopen.
      intros H. inversion H; subst. split; [|discriminate].
      intros m Hm. inversion Hm; auto.
    + simpl iterative. simpl search_depth. destruct (iterative self).
      * intros H. apply deepening_result in H; [|discriminate].
        destruct H as (H1 & H2). split.
        -- intros m Hm. destruct (H1 m Hm); auto.
        -- intros Hn. split; [discriminate|]. now apply H2.
      * destruct (call_search (select_search (set_time_left self tl)) game
                    (search_depth self) true k) as [[[v m']|e] k1] eqn:E;
          intros H.
        -- inversion H; subst. split; [|discriminate].
           intros m Hm. inversion Hm; subst.
           apply call_search_move_legal in E. destruct E; auto.
        -- destruct e; inversion H; subst. split; [discriminate|].
           intros _. split; [discriminate|reflexivity].
Qed.

(** X12: no [Timeout] leaves [get_move].  An exception that does is the
    [TypeError] of an unrecognised method, or was raised by the evaluation
    function on some state. *)
Theorem get_move_exceptions {B : Board} (fuel : nat) (self : CustomPlayer)
    (game : Game) (legal_moves : list Move) (tl : nat -> Q) (k k' : nat)
    (e : exn) :
  get_move fuel self game legal_moves tl k = Some (Raise e, k') ->
  e <> Timeout /\
  ((select_search (set_time_left self tl) = None /\ e = TypeError) \/
   (exists g, score self g (ident self) = Raise e)).
Proof.
  intros H.
  assert (Hcall : e <> Timeout /\
            exists d k0,
              call_search (select_search (set_time_left self tl)) game d true k0
              = (Raise e, k')).
  { unfold get_move in H. destruct legal_moves as [|m0 ms]; [discriminate|].
    destruct (Z.eqb (len (get_legal_moves game None)) (width game * height game));
      [discriminate|].
    simpl iterative in H. destruct (iterative self).
    - eapply deepening_raises; exact H.
    - destruct (call_search (select_search (set_time_left self tl)) game
                  (search_depth (set_time_left self tl)) true k)
        as [[[v m']|e0] k1] eqn:E; [discriminate|].
      destruct e0; inversion H; subst; (split; [discriminate|eauto]). }
  destruct Hcall as (Hne & d & k0 & Hcall). split; [exact Hne|].
  unfold call_search in Hcall.
  destruct (select_search (set_time_left self tl)) as [f|] eqn:Hs.
  - right.
    eapply (@call_search_raise_source _ (set_time_left self tl) tl) in Hcall;
      [|reflexivity|exact Hs].
    destruct Hcall as (_ & P).
    destruct (P e eq_refl) as [(D & _)|Hg]; [contradiction|exact Hg].
  - left. inversion Hcall. auto.
Qed.

(** X13: iterative deepening has no end of its own.  With a recognised
    method, a clock that never reads below the threshold and an evaluation
    function that always returns, [get_move] does not come back from a
    board past the opening: its loop outlasts every fuel. *)
Theorem iterative_deepening_ends_only_by_exception {B : Board}
    (self : CustomPlayer) (game : Game) (legal_moves : list Move)
    (tl : nat -> Q) :
  iterative self = true ->
  legal_moves <> [] ->
  len (get_legal_moves game None) <> (width game * height game)%Z ->
  method self = "minimax"%string \/ method self = "alphabeta"%string ->
  (forall j, ~ (tl j < TIMER_THRESHOLD self)%Q) ->
  (forall g, exists v, score self g (ident self) = Return v) ->
  forall fuel k, get_move fuel self game legal_moves tl k = None.
Proof.
  intros Hit Hl Hopen Hm Hample Hscore fuel k. unfold get_move.
  destruct legal_moves as [|m0 ms]; [contradiction|].
  apply Z.eqb_neq in Hopen. rewrite Hopen. simpl iterative. rewrite Hit.
  apply deepening_endless. intros d k0.
  assert (Ha : ample (set_time_left self tl))
    by (exists tl; split; [reflexivity|exact Hample]).
  destruct Hm as [Hm|Hm].
  - rewrite (select_search_minimax (set_time_left self tl) Hm). simpl.
    destruct (minimax_returns Ha Hscore game d true k0) as (r & Hr). eauto.
  - rewrite (select_search_alphabeta (set_time_left self tl) Hm). simpl.
    apply (alphabeta_returns Ha Hscore).
Qed.

Lemma get_move_result_witness :
  let self := agent (@custom_score board) "alphabeta" true 3 10%Q in
  ((3, 4)%Z = no_move \/
   ((3, 4)%Z = (half (width centre5), half (height centre5)) /\
    len (legal_moves centre5 None) = (width centre5 * height centre5)%Z) \/
   In (3, 4)%Z (legal_moves centre5 None)) /\
  ((3, 0)%Z = no_move \/
   ((3, 0)%Z = (half (width strip7), half (height strip7)) /\
    len (legal_moves strip7 None) = (width strip7 * height strip7)%Z) \/
   In (3, 0)%Z (legal_moves strip7 None)) /\
  call_search (select_search (set_time_left self (steady 5%Q))) centre5 1 true 0%nat
  = (Raise Timeout, 1%nat).
Proof.
  intros self. split; [|split].
  - assert (E : get_move 5 self centre5 (legal_moves centre5 None)
                  (expiring 40 100%Q) 0%nat
                = Some (Return (Some (3, 4)%Z), 41%nat))
      by (vm_compute; reflexivity).
    exact (proj1 (@get_move_result board 5 self centre5 _ _ 0 41 _ E)
             (3, 4)%Z eq_refl).
  - assert (E : get_move 5 self strip7 (legal_moves strip7 None)
                  (steady 100%Q) 0%nat
                = Some (Return (Some (3, 0)%Z), 0%nat))
      by (vm_compute; reflexivity).
    exact (proj1 (@get_move_result board 5 self strip7 _ _ 0 0 _ E)
             (3, 0)%Z eq_refl).
  - assert (E : get_move 5 self centre5 (legal_moves centre5 None)
                  (steady 5%Q) 0%nat = Some (Return None, 1%nat))
      by (vm_compute; reflexivity).
    exact (proj2 (proj2 (@get_move_result board 5 self centre5 _ _ 0 1 _ E)
                    eq_refl)).
Defined.

(** X17: with an empty list of legal moves [get_move] returns the sentinel
    (-1, -1); in the opening position of a square board, of a side below
    2^53, it returns the centre cell, in row and column the side halved and
    rounded down, a cell of the board.  In both cases no search is invoked:
    the answer needs no fuel, is the same for every method, recognised or
    not, and every clock, and leaves the clock untouched, whereas any search
    reads it. *)
Theorem get_move_without_search {B : Board} (fuel : nat) (self : CustomPlayer)
    (game : Game) (legal_moves : list Move) (tl : nat -> Q) (k : nat) :
  (legal_moves = [] ->
   get_move fuel self game legal_moves tl k = Some (Return (Some no_move), k)) /\
  (legal_moves <> [] ->
   len (get_legal_moves game None) = (width game * height game)%Z ->
   width game = height game ->
   (0 < width game < 2 ^ 53)%Z ->
   get_move fuel self game legal_moves tl k
   = Some (Return (Some (centre_cell game)), k) /\
   centre_cell game = ((width game / 2)%Z, (width game / 2)%Z) /\
   (0 <= width game / 2 < width game)%Z /\
   (width game - 1 <= 2 * (width game / 2) <= width game)%Z) /\
  (forall f g d arg r k',
     select_search (set_time_left self tl) = Some f ->
     f g d arg k = (r, k') -> (k < k')%nat).
Proof.
  split; [|split].
  - intros ->. reflexivity.
  - intros Hl Hopen Hsq Hn.
    assert (Hdiv : (0 <= width game / 2 < width game)%Z
                   /\ (width game - 1 <= 2 * (width game / 2) <= width game)%Z).
    { pose proof (Z.div_mod (width game) 2 ltac:(lia)).
      pose proof (Z.mod_pos_bound (width game) 2 ltac:(lia)). lia. }
    split; [|split; [|exact Hdiv]].
    + unfold get_move. destruct legal_moves as [|m0 ms]; [contradiction|].
      apply Z.eqb_eq in Hopen. rewrite Hopen.
      unfold centre_cell. rewrite <- Hsq.
      rewrite (@half_of_double (width game)) by lia. reflexivity.
    + unfold centre_cell. now rewrite <- Hsq.
  - intros f g d arg r k' Hf H.
    eapply (@search_reads_clock _ (set_time_left self tl) tl); eauto.
Qed.

(** The fresh 7 x 7 board with an unrecognised method, no fuel and an
    expired clock; and an empty list on another board. *)
Lemma get_move_without_search_witness :
  get_move 0 (agent (@custom_score board) "negamax" true 3 10%Q) fresh7
    (legal_moves fresh7 None) (steady 0%Q) 0%nat
  = Some (Return (Some (centre_cell fresh7)), 0%nat) /\
  centre_cell fresh7 = (3, 3)%Z /\
  get_move 0 (agent (@custom_score board) "minimax" true 3 10%Q) corners4
    [] (steady 100%Q) 0%nat
  = Some (Return (Some (-1, -1)%Z), 0%nat).
Proof.
  split; [|split; [reflexivity|]].
  - destruct (@get_move_without_search board 0
                (agent (@custom_score board) "negamax" true 3 10%Q) fresh7
                (legal_moves fresh7 None) (steady 0%Q) 0)
      as (_ & H & _).
    destruct H as [H _];
      [discriminate|reflexivity|reflexivity|vm_compute; split; reflexivity|].
    exact H.
  - apply (proj1 (@get_move_without_search board 0
                    (agent (@custom_score board) "minimax" true 3 10%Q) corners4
                    [] (steady 100%Q) 0)).
    reflexivity.
Defined.

Lemma get_move_exceptions_witness :
  let self := agent (@second_heuristic board) "minimax" true 3 10%Q in
  get_move 1 self last_cell (legal_moves last_cell None) (steady 100%Q) 0%nat
  = Some (Raise ZeroDivisionError, 1%nat) /\
  ZeroDivisionError <> Timeout /\
  ((select_search (set_time_left self (steady 100%Q)) = None /\
    ZeroDivisionError = TypeError) \/
   (exists g, second_heuristic g true = Raise ZeroDivisionError)).
Proof.
  intros self.
  assert (E : get_move 1 self last_cell (legal_moves last_cell None)
                (steady 100%Q) 0%nat = Some (Raise ZeroDivisionError, 1%nat))
    by (vm_compute; reflexivity).
  split; [exact E|].
  exact (@get_move_exceptions board 1 self last_cell _ _ 0 1 _ E).
Defined.

Lemma iterative_deepening_ends_only_by_exception_witness :
  get_move 3 (agent chaser "alphabeta" true 3 10%Q) centre5
    (legal_moves centre5 None) (steady 100%Q) 0%nat = None.
Proof.
  apply (@iterative_deepening_ends_only_by_exception board).
  - reflexivity.
  - discriminate.
  - discriminate.
  - right; reflexivity.
  - intros j H. vm_compute in H. discriminate.
  - intros g. eexists. reflexivity.
Defined.

(** ** The root move of alpha-beta *)

Section RootMove.
Context {B : Board}.

Lemma dls_max_loop_at_top (rec : Game -> M (Score * Move)) (game : Game)
    (children : list Move) :
  forall bm k v m k',
    dls_max_loop rec game children PosInf bm k = (Return (v, m), k') ->
    v = PosInf /\ m = bm.
Proof.
  induction children as [|c cs IH]; simpl; intros bm k v m k' H.
  - inversion H; auto.
  - apply bind_Return_inv in H. destruct H as ([v1 m1] & k1 & _ & H).
    cbv beta iota in H. eapply IH; exact H.
Qed.

Lemma root_max_loops_agree
    (rec : Game -> Score -> Score -> M (Score * Move))
    (rec' : Game -> M (Score * Move)) (f : Game -> Score)
    (game : Game) (children : list Move) :
  Forall (fun c => forall a b k v m k',
            score_lt a b ->
            rec (forecast_move game c) a b k = (Return (v, m), k') ->
            within a b (f (forecast_move game c)) v) children ->
  (forall g k v m k', rec' g k = (Return (v, m), k') -> v = f g) ->
  forall best bm k v m k' k2 V M k2',
    score_lt best PosInf ->
    ab_max_loop rec game children best PosInf best bm k = (Return (v, m), k') ->
    dls_max_loop rec' game children best bm k2 = (Return (V, M), k2') ->
    v = V /\ m = M.
Proof.
  intros Hrec Hrec'. induction Hrec as [|c cs Hc Hcs IH]; simpl;
    intros best bm k v m k' k2 V M k2' Hlt Hab Hdls.
  - inversion Hab; inversion Hdls; subst; auto.
  - apply bind_Return_inv in Hab. destruct Hab as ([v1 m1] & k1 & Hcall & Hab).
    apply bind_Return_inv in Hdls. destruct Hdls as ([w1 n1] & k3 & Hcall' & Hdls).
    apply Hc in Hcall; [|exact Hlt]. apply Hrec' in Hcall'. subst w1.
    cbv beta iota in Hab, Hdls.
    apply within_cases in Hcall; [|exact Hlt].
    pose proof (PosInf_greatest (f (forecast_move game c))) as Htop.
    destruct (score_ltb best v1) eqn:E1;
      [apply score_ltb_lt in E1 | apply score_ltb_ge in E1].
    + assert (Ev : f (forecast_move game c) = v1)
        by (break_logic; score_order).
      rewrite Ev in Hdls.
      assert (E1' : score_ltb best v1 = true) by now apply score_ltb_lt.
      rewrite E1' in Hdls.
      assert (Ea : score_max best v1 = v1) by (unfold score_max; now rewrite E1').
      rewrite Ea in Hab.
      destruct (score_leb PosInf v1) eqn:E2;
        [apply score_leb_le in E2 | apply score_leb_gt in E2].
      * assert (Hv : v1 = PosInf)
          by (pose proof (PosInf_greatest v1); score_order).
        rewrite Hv in Hab, Hdls. inversion Hab; subst v m.
        apply dls_max_loop_at_top in Hdls. destruct Hdls; subst; auto.
      * eapply IH; [exact E2|exact Hab|exact Hdls].
    + assert (E0 : score_ltb best (f (forecast_move game c)) = false)
        by (apply score_ltb_ge; break_logic; score_order).
      rewrite E0 in Hdls.
      assert (Ea : score_max best best = best)
        by (unfold score_max; destruct (score_ltb best best); reflexivity).
      rewrite Ea in Hab.
      destruct (score_leb PosInf best) eqn:E2;
        [apply score_leb_le in E2; score_order | ].
      eapply IH; [exact Hlt|exact Hab|exact Hdls].
Qed.

End RootMove.

(** X14: called at a maximizing root with the full window, alpha = -inf
    and beta = +inf, [alphabeta] returns not only the score of [dls] but the
    same move too (dead ends being scored as lost for the side to move). *)
Theorem alphabeta_root_move_is_minimax_move {B : Board} (self : CustomPlayer)
    (game : Game) (depth : nat) (k1 k1' k2 k2' : nat) (v V : Score) (m M : Move) :
  dead_ends_scored self depth true game ->
  alphabeta self game depth NegInf PosInf true k1 = (Return (v, m), k1') ->
  dls self game depth true k2 = (Return (V, M), k2') ->
  v = V /\ m = M.
Proof.
  intros Hdead Hab Hdls. destruct depth as [|d]; simpl in *;
    apply bind_Return_inv in Hab; destruct Hab as (u & k & _ & Hab).
  - unfold leaf, bind, lift, ret in *.
    destruct (score self game (ident self)); inversion Hab; inversion Hdls;
      subst; auto.
  - destruct (get_legal_moves game None) as [|c cs] eqn:E.
    + unfold leaf, bind, lift, ret in Hab. rewrite Hdead in Hab.
      inversion Hab; inversion Hdls; subst; auto.
    + eapply root_max_loops_agree
        with (f := minimax_value self d false) (best := NegInf);
        [| |exact I|exact Hab|exact Hdls].
      * rewrite Forall_forall in *. intros c0 Hin a b k0 v0 m0 k0' Hw H0.
        eapply alphabeta_within; [exact Hw|apply Hdead; exact Hin|exact H0].
      * intros g k0 v0 m0 k0' H0. eapply dls_value; exact H0.
Qed.

Lemma alphabeta_root_move_is_minimax_move_witness :
  let self := set_time_left (agent (@custom_score board) "alphabeta" true 3 10%Q)
                (steady 100%Q) in
  alphabeta self centre5 3 NegInf PosInf true 0%nat
  = (Return (Fin (Q2Qc (16 # 5)), (1, 0)%Z), 35%nat) /\
  dls self centre5 3 true 0%nat
  = (Return (Fin (Q2Qc (16 # 5)), (1, 0)%Z), 0%nat) /\
  Fin (Q2Qc (16 # 5)) = Fin (Q2Qc (16 # 5)) /\ (1, 0)%Z = (1, 0)%Z.
Proof.
  intros self.
  assert (E1 : alphabeta self centre5 3 NegInf PosInf true 0%nat
               = (Return (Fin (Q2Qc (16 # 5)), (1, 0)%Z), 35%nat))
    by same_run.
  assert (E2 : dls self centre5 3 true 0%nat
               = (Return (Fin (Q2Qc (16 # 5)), (1, 0)%Z), 0%nat))
    by same_run.
  split; [exact E1|]. split; [exact E2|].
  refine (@alphabeta_root_move_is_minimax_move board self centre5 3
            0 35 0 0 _ _ _ _ _ E1 E2).
  apply custom_score_scores_dead_ends; reflexivity.
Defined.

(** ** Ties *)

Section FirstSeen.
Context {B : Board}.

Lemma dls_max_loop_first (rec : Game -> M (Score * Move)) (f : Game -> Score)
    (game : Game) (children : list Move) :
  (forall g k v m k', rec g k = (Return (v, m), k') -> v = f g) ->
  forall seen best bm k v m k',
    (forall c, In c seen -> score_le (f (forecast_move game c)) best) ->
    ((bm = no_move /\ best = NegInf) \/
     exists l1 l2, seen = l1 ++ bm :: l2 /\ f (forecast_move game bm) = best /\
                   forall c, In c l1 -> score_lt (f (forecast_move game c)) best) ->
    dls_max_loop rec game children best bm k = (Return (v, m), k') ->
    (m = no_move /\ v = NegInf) \/
    exists l1 l2, seen ++ children = l1 ++ m :: l2 /\
                  f (forecast_move game m) = v /\
                  forall c, In c l1 -> score_lt (f (forecast_move game c)) v.
Proof.
  intros Hrec. induction children as [|a cs IH]; simpl;
    intros seen best bm k v m k' Hle Hinv H.
  - inversion H; subst. rewrite app_nil_r. exact Hinv.
  - apply bind_Return_inv in H. destruct H as ([v1 m1] & k1 & Hc & H).
    apply Hrec in Hc. subst v1. cbv beta iota in H.
    replace (seen ++ a :: cs) with ((seen ++ [a]) ++ cs)
      by (rewrite <- app_assoc; reflexivity).
    destruct (score_ltb best (f (forecast_move game a))) eqn:E;
      [apply score_ltb_lt in E | apply score_ltb_ge in E].
    + eapply IH; [| |exact H].
      * intros c Hin. apply in_app_or in Hin. destruct Hin as [Hin|[<-|[]]].
        -- specialize (Hle c Hin). score_order.
        -- right; reflexivity.
      * right. exists seen, []. split; [reflexivity|]. split; [reflexivity|].
        intros c Hin. specialize (Hle c Hin). score_order.
    + eapply IH; [| |exact H].
      * intros c Hin. apply in_app_or in Hin. destruct Hin as [Hin|[<-|[]]].
        -- now apply Hle.
        -- exact E.
      * destruct Hinv as [Hs|(l1 & l2 & -> & Hb & Hl1)]; [now left|right].
        exists l1, (l2 ++ [a]). split; [|split; assumption].
        rewrite <- app_assoc. reflexivity.
Qed.

Lemma dls_min_loop_first (rec : Game -> M (Score * Move)) (f : Game -> Score)
    (game : Game) (children : list Move) :
  (forall g k v m k', rec g k = (Return (v, m), k') -> v = f g) ->
  forall seen best bm k v m k',
    (forall c, In c seen -> score_le best (f (forecast_move game c))) ->
    ((bm = no_move /\ best = PosInf) \/
     exists l1 l2, seen = l1 ++ bm :: l2 /\ f (forecast_move game bm) = best /\
                   forall c, In c l1 -> score_lt best (f (forecast_move game c))) ->
    dls_min_loop rec game children best bm k = (Return (v, m), k') ->
    (m = no_move /\ v = PosInf) \/
    exists l1 l2, seen ++ children = l1 ++ m :: l2 /\
                  f (forecast_move game m) = v /\
                  forall c, In c l1 -> score_lt v (f (forecast_move game c)).
Proof.
  intros Hrec. induction children as [|a cs IH]; simpl;
    intros seen best bm k v m k' Hle Hinv H.
  - inversion H; subst. rewrite app_nil_r. exact Hinv.
  - apply bind_Return_inv in H. destruct H as ([v1 m1] & k1 & Hc & H).
    apply Hrec in Hc. subst v1. cbv beta iota in H.
    replace (seen ++ a :: cs) with ((seen ++ [a]) ++ cs)
      by (rewrite <- app_assoc; reflexivity).
    destruct (score_ltb (f (forecast_move game a)) best) eqn:E;
      [apply score_ltb_lt in E | apply score_ltb_ge in E].
    + eapply IH; [| |exact H].
      * intros c Hin. apply in_app_or in Hin. destruct Hin as [Hin|[<-|[]]].
        -- specialize (Hle c Hin). score_order.
        -- right; reflexivity.
      * right. exists seen, []. split; [reflexivity|]. split; [reflexivity|].
        intros c Hin. specialize (Hle c Hin). score_order.
    + eapply IH; [| |exact H].
      * intros c Hin. apply in_app_or in Hin. destruct Hin as [Hin|[<-|[]]].
        -- now apply Hle.
        -- exact E.
      * destruct Hinv as [Hs|(l1 & l2 & -> & Hb & Hl1)]; [now left|right].
        exists l1, (l2 ++ [a]). split; [|split; assumption].
        rewrite <- app_assoc. reflexivity.
Qed.

End FirstSeen.

(** X15: among legal moves whose children score the same, [dls] keeps the
    first in the order of [get_legal_moves]: every legal move listed before
    the returned one leads to a child that [dls] scores strictly worse than
    the returned score (lower on a maximizing layer, higher on a minimizing
    one). *)
Theorem dls_keeps_first_best_move {B : Board} (self : CustomPlayer) (game : Game)
    (depth : nat) (mx : bool) (k k' : nat) (v : Score) (m : Move) :
  dls self game (S depth) mx k = (Return (v, m), k') ->
  (m = no_move /\ v = if mx then NegInf else PosInf) \/
  exists l1 l2,
    get_legal_moves game None = l1 ++ m :: l2 /\
    forall c, In c l1 ->
      forall kc vc mc kc',
        dls self (forecast_move game c) depth (negb mx) kc = (Return (vc, mc), kc') ->
        if mx then score_lt vc v else score_lt v vc.
Proof.
  intros H. simpl in H. destruct mx.
  - eapply dls_max_loop_first
      with (f := minimax_value self depth false) (seen := []) in H.
    + destruct H as [H|(l1 & l2 & Hm & _ & Hl1)]; [now left|right].
      exists l1, l2. split; [exact Hm|].
      intros c Hin kc vc mc kc' Hc. apply dls_value in Hc. subst vc.
      now apply Hl1.
    + intros g k0 v0 m0 k0' H0. eapply dls_value; exact H0.
    + intros c [].
    + now left.
  - eapply dls_min_loop_first
      with (f := minimax_value self depth true) (seen := []) in H.
    + destruct H as [H|(l1 & l2 & Hm & _ & Hl1)]; [now left|right].
      exists l1, l2. split; [exact Hm|].
      intros c Hin kc vc mc kc' Hc. apply dls_value in Hc. subst vc.
      now apply Hl1.
    + intros g k0 v0 m0 k0' H0. eapply dls_value; exact H0.
    + intros c [].
    + now left.
Qed.

(** X16: [third_heuristic] raises [TypeError] exactly when one of the two
    players is not on the board and, both being on it, [ZeroDivisionError]
    exactly when the board has no cells; it raises nothing else, and never
    returns an infinite score. *)
Theorem third_heuristic_errors {B : Board} (game : Game) (player : Player) :
  let placed :=
    get_player_location game player <> None /\
    get_player_location game (get_opponent game player) <> None in
  (third_heuristic game player = Raise TypeError <-> ~ placed) /\
  (third_heuristic game player = Raise ZeroDivisionError <->
   placed /\ (width game * height game)%Z = 0%Z) /\
  (forall e, third_heuristic game player = Raise e ->
             e = TypeError \/ e = ZeroDivisionError) /\
  (forall v, third_heuristic game player = Return v -> exists q, v = Fin q).
Proof.
  intros placed. unfold placed, third_heuristic, distance_to_opponent, unpack,
    percent_occupation, fdiv.
  destruct (get_player_location game player) as [[x0 x1]|]; simpl;
    [destruct (get_player_location game (get_opponent game player))
       as [[y0 y1]|]; simpl;
     [destruct (Qc_eq_dec (of_int (width game * height game)) (of_int 0))
        as [E|E]; simpl; [apply of_int_inj in E|] |] |];
    (split; [split|split; [split|split]]); intros;
    repeat match goal with
      | H : _ /\ _ |- _ => destruct H
      | H : Raise _ = Raise _ |- _ => inversion H; clear H; subst
      | H : Return _ = Return _ |- _ => inversion H; clear H; subst
      | H : Return _ = Raise _ |- _ => discriminate H
      | H : Raise _ = Return _ |- _ => discriminate H
      end;
    try discriminate; try tauto; try congruence; eauto;
    try (exfalso;
         match goal with H : ~ _ |- _ => apply H; split; discriminate end);
    try (split; [split; discriminate | assumption]).
Qed.

Lemma dls_keeps_first_best_move_witness :
  let self := set_time_left (agent (@custom_score board) "minimax" true 3 10%Q)
                (steady 100%Q) in
  legal_moves centre5 None
  = [(0, 3); (1, 0); (1, 4); (3, 0)]%Z ++ (3, 4)%Z :: [(4, 1); (4, 3)]%Z /\
  ((3, 4)%Z = no_move /\ Fin (Q2Qc (128 # 25)) = NegInf \/
   exists l1 l2,
     legal_moves centre5 None = l1 ++ (3, 4)%Z :: l2 /\
     forall c, In c l1 ->
       forall kc vc mc kc',
         dls self (apply_move centre5 c) 0 false kc = (Return (vc, mc), kc') ->
         score_lt vc (Fin (Q2Qc (128 # 25)))).
Proof.
  intros self. split; [reflexivity|].
  apply (@dls_keeps_first_best_move board self centre5 0 true 0 0
           (Fin (Q2Qc (128 # 25))) (3, 4)%Z).
  same_run.
Defined.

Lemma third_heuristic_errors_witness :
  third_heuristic fresh7 true = Raise TypeError /\
  (exists q, @third_heuristic board middle7 true = Return (Fin q)).
Proof.
  split.
  - apply (proj1 (@third_heuristic_errors board fresh7 true)).
    intros [H _]. now apply H.
  - destruct (@third_heuristic board middle7 true) as [v|e] eqn:E.
    + destruct (proj2 (proj2 (proj2 (@third_heuristic_errors board middle7 true)))
                  v E) as (q & ->).
      now exists q.
    + vm_compute in E. discriminate.
Defined.
